(** * mirrormere: the iCloud worker (icloud-worker/app/main.py)

    A shallow embedding of the worker's sync engine and of its two request
    handlers, and the properties of the specification proved about it.

    Python values are modelled as follows.
    - A [str] is a list of Unicode code points ([pystr]); [bytes] is a list of
      bytes.
    - [os.environ], the pending-session table and a directory are finite maps
      ([gmap]); the dedup baseline is a finite set ([gset]).
    - Everything the worker obtains from a collaborator (the object store, the
      remote account, the token check, the random generators, the clock) is
      a field of an environment record [Env]; answers that may change from
      one call to the next take the history of calls so far as an argument.
    - Effects are threaded explicitly: a computation maps a [World] (session
      table, file system, history of calls) to an outcome and a new [World];
      a raised exception keeps the world it was raised in. *)

From Stdlib Require Import ZArith Floats.PrimFloat.
From stdpp Require Import gmap strings list fin_maps pretty.

Set Default Proof Using "Type".
Local Open Scope Z_scope.

(** ** Strings *)

(** A Python [str]: a sequence of Unicode code points. *)
Definition pychar := N.
Definition pystr := list N.
Definition bytes := list Byte.byte.

(** String literals of the source (all of them ASCII). *)
Definition py (s : string) : pystr :=
  Ascii.N_of_ascii <$> String.list_ascii_of_string s.

(** Truthiness of a string and of an optional string ([if value:]). *)
Definition truthy (s : pystr) : bool :=
  match s with [] => false | _ :: _ => true end.

Definition truthy_opt (o : option pystr) : bool :=
  match o with Some s => truthy s | None => false end.

(** [value or fallback] on optional strings. *)
Definition or_else (o : option pystr) (fallback : pystr) : pystr :=
  match o with
  | Some s => if truthy s then s else fallback
  | None => fallback
  end.

Definition in_range (lo hi c : N) : bool := ((lo <=? c) && (c <=? hi))%N.

(** The characters of the class [[A-Za-z0-9]]. *)
Definition ascii_alnum (c : pychar) : bool :=
  in_range 48 57 c || in_range 65 90 c || in_range 97 122 c.

(** The characters of the class [[A-Za-z0-9_-]]. *)
Definition ascii_safe (c : pychar) : bool :=
  ascii_alnum c || (c =? 45)%N || (c =? 95)%N.

(** The part of [str.isalnum] that lies in Latin-1 above ASCII: the code
    points whose Unicode category is a letter or that have a numeric value
    (feminine and masculine ordinals, superscript digits, micro sign, vulgar
    fractions, and the accented letters except the multiplication and
    division signs). *)
Definition latin1_alnum (c : pychar) : bool :=
  (c =? 170)%N || (c =? 178)%N || (c =? 179)%N || (c =? 181)%N
  || (c =? 185)%N || (c =? 186)%N || in_range 188 190 c
  || in_range 192 214 c || in_range 216 246 c || in_range 248 255 c.

(** [ch.isalnum()] for a single character. The source calls the built-in of
    the Python runtime, which consults the Unicode character database; the
    database is written out here up to U+00FF and taken as a parameter
    [wide_alnum] beyond. *)
Definition isalnum (wide_alnum : pychar → bool) (c : pychar) : bool :=
  if (c <? 128)%N then ascii_alnum c
  else if (c <? 256)%N then latin1_alnum c
  else wide_alnum c.

(** [str.startswith] and [str.endswith]. *)
Fixpoint startswith (s p : pystr) : bool :=
  match p, s with
  | [], _ => true
  | _ :: _, [] => false
  | a :: p', b :: s' => (a =? b)%N && startswith s' p'
  end.

Definition endswith (s p : pystr) : bool := startswith (reverse s) (reverse p).

(** ** Key Builder (perform_sync, lines 222-229) *)

(** [ch.isalnum() or ch in ("-", "_")] *)
Definition keep_char (wide_alnum : pychar → bool) (ch : pychar) : bool :=
  isalnum wide_alnum ch || (ch =? 45)%N || (ch =? 95)%N.

(** ["".join(ch for ch in (identifier or "") if ...)] *)
Definition safe_identifier (wide_alnum : pychar → bool)
    (identifier : option pystr) : pystr :=
  filter (λ ch, keep_char wide_alnum ch = true) (or_else identifier []).

(** The two f-strings that build the destination key. *)
Definition destination_key (wide_alnum : pychar → bool) (prefix : pystr)
    (identifier : option pystr) (filename : pystr) : pystr :=
  let safe := safe_identifier wide_alnum identifier in
  if truthy safe then prefix ++ safe ++ py "-" ++ filename
  else prefix ++ filename.

(** ** Data model *)

(** Exceptions. [HTTPException] is the one the worker raises itself; every
    other exception is kept as the text [str(exc)] gives. *)
Inductive exn :=
| HTTPException (status_code : Z) (detail : pystr)
| Exception (text : pystr).

(** [str(exc)]; an [HTTPException] prints as ["{status_code}: {detail}"]. *)
Definition str_exn (e : exn) : pystr :=
  match e with
  | HTTPException code detail => py (pretty code) ++ py ": " ++ detail
  | Exception text => text
  end.

(** The answer of a collaborator: a value, or an exception with its text. *)
Inductive answer (A : Type) :=
| Ok (a : A)
| Fails (text : pystr).
Arguments Ok {A} a.
Arguments Fails {A} text.

(** class PendingSession *)
Record PendingSession := {
  apple_id : pystr;
  app_password : pystr;
  session_dir : pystr;
  created_at : float;
}.

(** class SessionPayload *)
Record SessionPayload := {
  file_name : pystr;
  data : pystr;
}.

(** class SyncRequest *)
Record SyncRequest := {
  req_apple_id : pystr;
  req_app_password : pystr;
  req_session : option SessionPayload;
  req_limit : option Z;
}.

(** class TwoFactorRequest *)
Record TwoFactorRequest := {
  session_id : pystr;
  code : pystr;
}.

(** What [photo.download()] may hand back, in the order in which
    [download_photo_bytes] tests for it. An [io.BytesIO] has a [read]
    attribute and is therefore a [DStream]. *)
Inductive downloaded :=
| DBytes (content : bytes)
| DResponse (content : bytes)
| DStream (content : bytes)
| DDict (entry : option bytes)
| DOther.

(** What [photo.download(download_dir=d)] does: the path it returns, if any,
    and the files it leaves on disk, by path. *)
Record dir_download := {
  returned_path : option pystr;
  written : gmap pystr bytes;
}.

(** A source item: the attributes the worker probes (absent or [None] is
    [None] here) and the behaviour of its two download calls. *)
Record Photo := {
  ph_id : option pystr;
  ph_asset_id : option pystr;
  ph_record_name : option pystr;
  ph_recordName : option pystr;
  ph_filename : option pystr;
  ph_original_filename : option pystr;
  ph_file_name : option pystr;
  ph_name : option pystr;
  download : answer downloaded;
  download_to : pystr → answer dir_download;
}.

(** The handle [PyiCloudService(...)] returns. *)
Record Api := {
  requires_2fa : bool;
  requires_2sa : bool;
  validate_2fa_code : pystr → answer bool;
  photos : list Photo;
}.

(** One page of [list_objects_v2]. *)
Record ListItem := { Key : option pystr }.

Record ListResponse := {
  Contents : option (list ListItem);
  IsTruncated : bool;
  NextContinuationToken : option pystr;
}.

(** The history of a process: the calls made to collaborators, oldest first,
    and the entries into the sync engine. *)
Inductive Event :=
| EvLogin (apple_id app_password cookie_directory : pystr)
| EvValidate2fa (code : pystr)
| EvPerformSync (limit : option Z)
| EvListObjects (bucket prefix : pystr) (continuation : option pystr)
| EvDownload (photo : Photo)
| EvDownloadTo (photo : Photo) (download_dir : pystr)
| EvPutObject (bucket key : pystr) (body : bytes) (content_type : pystr)
    (stored : bool)
| EvUuid4 (hex : pystr)
| EvMkdtemp (path : pystr)
| EvTime (now : float).

(** The collaborators and the runtime tables. *)
Record Env := {
  environ : gmap pystr pystr;
  wide_alnum : pychar → bool;
  jwt_decode : pystr → pystr → bool;
  guess_type : pystr → option pystr;
  PyiCloudService : list Event → pystr → pystr → pystr → answer Api;
  list_objects_v2 : pystr → pystr → option pystr → answer ListResponse;
  put_object : list Event → pystr → pystr → bytes → pystr → answer unit;
  uuid4_hex : list Event → pystr;
  gettempdir : pystr;
  candidate_names : list Event → list pystr;
  os_error : pystr → option pystr;
  time_time : list Event → float;
}.

(** A directory holds files by name; the file system holds directories by
    path. *)
Record World := {
  pending_sessions : gmap pystr PendingSession;
  fs : gmap pystr (gmap pystr pystr);
  trace : list Event;
}.

(** ** Computations *)

Inductive outcome (A : Type) :=
| Return (a : A)
| Raise (e : exn)
| OutOfFuel.
Arguments Return {A} a.
Arguments Raise {A} e.
Arguments OutOfFuel {A}.

Definition M (A : Type) : Type := World → outcome A * World.

Definition ret {A} (a : A) : M A := λ w, (Return a, w).

Definition raise {A} (e : exn) : M A := λ w, (Raise e, w).

Definition bind {A B} (m : M A) (k : A → M B) : M B := λ w,
  match m w with
  | (Return a, w') => k a w'
  | (Raise e, w') => (Raise e, w')
  | (OutOfFuel, w') => (OutOfFuel, w')
  end.

Notation "'let*' x := m 'in' k" := (bind m (λ x, k))
  (at level 10, x pattern, m at level 100, k at level 200).

(** [try: body / except Exception as exc: handler(exc)] *)
Definition try_except {A} (body : M A) (handler : exn → M A) : M A := λ w,
  match body w with
  | (Raise e, w') => handler e w'
  | r => r
  end.

Definition get_world : M World := λ w, (Return w, w).

Definition log (ev : Event) : M unit := λ w,
  (Return (),
   {| pending_sessions := pending_sessions w; fs := fs w;
      trace := trace w ++ [ev] |}).

Definition set_fs (f : gmap pystr (gmap pystr pystr)) : M unit := λ w,
  (Return (),
   {| pending_sessions := pending_sessions w; fs := f; trace := trace w |}).

Definition set_pending (t : gmap pystr PendingSession) : M unit := λ w,
  (Return (), {| pending_sessions := t; fs := fs w; trace := trace w |}).

(** Turning a collaborator's answer into a result or a raised exception. *)
Definition lift {A} (a : answer A) : M A :=
  match a with
  | Ok x => ret x
  | Fails text => raise (Exception text)
  end.

(** ** Paths and files (posixpath, tempfile, open) *)

Definition slash : pychar := 47%N.

(** [os.path.basename]: what follows the last slash. *)
Fixpoint basename (p : pystr) : pystr :=
  match p with
  | [] => []
  | c :: rest =>
      if existsb (N.eqb slash) rest then basename rest
      else if (c =? slash)%N then rest
      else p
  end.

(** The directory a path's last component is looked up in: what precedes
    the last slash. *)
Definition parent_dir (p : pystr) : pystr :=
  take (length p - length (basename p) - 1)%nat p.

(** [os.path.join(a, b)] *)
Definition join (a b : pystr) : pystr :=
  if startswith b [slash] then b
  else if negb (truthy a) || endswith a [slash] then a ++ b
  else a ++ [slash] ++ b.

(** Names that never denote a regular file inside a directory. *)
Definition names_directory (leaf : pystr) : bool :=
  bool_decide (leaf = [] ∨ leaf = py "." ∨ leaf = py "..").

Definition lookup_file (f : gmap pystr (gmap pystr pystr)) (p : pystr)
    : option pystr :=
  f !! parent_dir p ≫= λ entries, entries !! basename p.

Definition path_exists (f : gmap pystr (gmap pystr pystr)) (p : pystr)
    : bool :=
  bool_decide (p ∈ dom f) || bool_decide (is_Some (lookup_file f p)).

(** States of the loop of [perform_sync]. *)
Record SyncState := {
  existing : gset pystr;
  imported : nat;
  skipped : nat;
  errors : list pystr;
}.

(** The JSON bodies the two handlers return: [{"status": "needs_2fa", ...}]
    and [{"status": "ok", ...}]. *)
Inductive Response :=
| Needs2FA (session_id : pystr)
| SyncOk (imported skipped : nat) (errors : list pystr)
    (session : option SessionPayload).

Section Worker.
Context (E : Env).

(** [uuid4().hex] *)
Definition uuid4 : M pystr :=
  let* w := get_world in
  let hex := uuid4_hex E (trace w) in
  let* _ := log (EvUuid4 hex) in
  ret hex.

(** [time.time()] *)
Definition time : M float :=
  let* w := get_world in
  let now := time_time E (trace w) in
  let* _ := log (EvTime now) in
  ret now.

(** [tempfile.mkdtemp(prefix=...)]: the first candidate name that does not
    exist yet is created, empty. *)
Definition mkdtemp (prefix : pystr) : M pystr :=
  let* w := get_world in
  let candidates :=
    (λ name, join (gettempdir E) (prefix ++ name))
      <$> candidate_names E (trace w) in
  match List.find (λ p, negb (path_exists (fs w) p)) candidates with
  | None => raise (Exception (py "No usable temporary directory name found"))
  | Some p =>
      let* _ := set_fs (<[p := ∅]> (fs w)) in
      let* _ := log (EvMkdtemp p) in
      ret p
  end.

(** [with open(path, "w", encoding="utf-8") as handle: handle.write(text)].
    Opening fails on an embedded NUL, when the directory of the path is
    missing, when the path names a directory, and when the operating system
    refuses the name; nothing is written then. *)
Definition write_text (path text : pystr) : M unit :=
  if bool_decide (0%N ∈ path) then raise (Exception (py "embedded null byte"))
  else
    let* w := get_world in
    match fs w !! parent_dir path with
    | None => raise (Exception (py "[Errno 2] No such file or directory"))
    | Some entries =>
        if names_directory (basename path) || bool_decide (path ∈ dom (fs w))
        then raise (Exception (py "[Errno 21] Is a directory"))
        else match os_error E path with
             | Some text => raise (Exception text)
             | None =>
                 set_fs (<[parent_dir path := <[basename path := text]> entries]>
                           (fs w))
             end
    end.

(** verify_token *)
Definition verify_token (auth_header : option pystr) : M unit :=
  if negb (truthy_opt auth_header)
     || negb (startswith (default [] auth_header) (py "Bearer "))
  then raise (HTTPException 401 (py "Missing bearer token"))
  else
    (* auth_header.split(" ", 1)[1]: what follows the first space *)
    let token := drop 7 (default [] auth_header) in
    let secret := environ E !! py "WORKER_JWT_SECRET" in
    if negb (truthy_opt secret)
    then raise (HTTPException 500 (py "WORKER_JWT_SECRET not configured"))
    else if jwt_decode E token (default [] secret) then ret ()
    else raise (HTTPException 401 (py "Invalid token")).

(** get_s3_client: the bucket name; the client is the environment. *)
Definition get_s3_client : M pystr :=
  let bucket := environ E !! py "PHOTO_BUCKET" in
  if negb (truthy_opt bucket)
  then raise (HTTPException 500 (py "PHOTO_BUCKET not configured"))
  else ret (default [] bucket).

(** The keys one page adds to the set. *)
Definition add_page_keys (keys : gset pystr) (response : ListResponse)
    : gset pystr :=
  foldl (λ acc item,
           match Key item with
           | Some key => if truthy key then acc ∪ {[key]} else acc
           | None => acc
           end)
        keys (default [] (Contents response)).

(** The [while True] loop of list_existing_keys; [fuel] bounds the number of
    pages requested. *)
Fixpoint list_existing_keys_loop (fuel : nat) (bucket prefix : pystr)
    (keys : gset pystr) (continuation : option pystr) : M (gset pystr) :=
  match fuel with
  | O => λ w, (OutOfFuel, w)
  | S fuel' =>
      let token := if truthy_opt continuation then continuation else None in
      let* _ := log (EvListObjects bucket prefix token) in
      let* response := lift (list_objects_v2 E bucket prefix token) in
      let keys' := add_page_keys keys response in
      if IsTruncated response
      then list_existing_keys_loop fuel' bucket prefix keys'
             (NextContinuationToken response)
      else ret keys'
  end.

(** list_existing_keys *)
Definition list_existing_keys (fuel : nat) (bucket prefix : pystr)
    : M (gset pystr) :=
  list_existing_keys_loop fuel bucket prefix ∅ None.

(** ensure_photo_prefix *)
Definition ensure_photo_prefix : pystr :=
  let prefix := default (py "photos/") (environ E !! py "PHOTO_PREFIX") in
  if endswith prefix (py "/") then prefix else prefix ++ py "/".

(** create_session_dir *)
Definition create_session_dir (session : option SessionPayload) : M pystr :=
  let* session_dir := mkdtemp (py "icloud-session-") in
  let* _ :=
    match session with
    | Some s =>
        let file_name := basename (file_name s) in
        let file_path := join session_dir file_name in
        write_text file_path (data s)
    | None => ret ()
    end in
  ret session_dir.

(** extract_session_payload; [os.listdir] lists a directory in the order of
    the map. *)
Definition extract_session_payload (session_dir : pystr)
    : M (option SessionPayload) :=
  let* w := get_world in
  match fs w !! session_dir with
  | None => raise (Exception (py "[Errno 2] No such file or directory"))
  | Some entries =>
      match map_to_list entries with
      | [] => ret None
      | (file_name, data) :: _ =>
          ret (Some {| file_name := file_name; data := data |})
      end
  end.

(** The first truthy value among the attributes probed. *)
Definition first_truthy (values : list (option pystr)) : option pystr :=
  List.find truthy (omap id values).

(** get_photo_identifier *)
Definition get_photo_identifier (photo : Photo) : option pystr :=
  first_truthy
    [ph_id photo; ph_asset_id photo; ph_record_name photo;
     ph_recordName photo].

(** get_photo_filename *)
Definition get_photo_filename (photo : Photo) : M pystr :=
  match first_truthy
          [ph_filename photo; ph_original_filename photo;
           ph_file_name photo; ph_name photo] with
  | Some value => ret value
  | None =>
      match get_photo_identifier photo with
      | Some identifier => ret (identifier ++ py ".jpg")
      | None => let* hex := uuid4 in ret (hex ++ py ".jpg")
      end
  end.

(** download_photo_bytes. Of the files on disk only those the directory
    download leaves are looked at: the directory is fresh. *)
Definition download_photo_bytes (photo : Photo) : M bytes :=
  let* _ := log (EvDownload photo) in
  let* downloaded := lift (download photo) in
  match downloaded with
  | DBytes content | DResponse content | DStream content
  | DDict (Some content) => ret content
  | DDict None | DOther =>
      let* temp_dir := mkdtemp (py "icloud-photo-") in
      let* _ := log (EvDownloadTo photo temp_dir) in
      let* result := lift (download_to photo temp_dir) in
      let* file_path :=
        if truthy_opt (returned_path result) then ret (returned_path result)
        else
          let* name := get_photo_filename photo in
          let fallback := join temp_dir name in
          ret (if bool_decide (is_Some (written result !! fallback))
               then Some fallback else None) in
      match file_path ≫= λ p, written result !! p with
      | Some content => ret content
      | None => raise (Exception (py "Failed to download photo"))
      end
  end.

(** upload_photo *)
Definition upload_photo (bucket key : pystr) (body : bytes) : M unit :=
  let content_type :=
    or_else (guess_type E key) (py "application/octet-stream") in
  let* w := get_world in
  let result := put_object E (trace w) bucket key body content_type in
  let* _ :=
    log (EvPutObject bucket key body content_type
           (match result with Ok _ => true | Fails _ => false end)) in
  lift result.

(** The key of an item whose filename has been resolved. *)
Definition item_key (prefix : pystr) (photo : Photo) (filename : pystr)
    : pystr :=
  destination_key (wide_alnum E) prefix (get_photo_identifier photo) filename.

(** The message of the [except] branch. *)
Definition failure_message (filename : pystr) (exc : exn) : pystr :=
  py "Failed " ++ filename ++ py ": " ++ str_exn exc.

(** The body of the [for] loop of perform_sync, after the limit test. *)
Definition sync_item (bucket prefix : pystr) (photo : Photo) (st : SyncState)
    : M SyncState :=
  let* filename := get_photo_filename photo in
  let key := item_key prefix photo filename in
  if bool_decide (key ∈ existing st) then
    ret {| existing := existing st; imported := imported st;
           skipped := S (skipped st); errors := errors st |}
  else
    try_except
      (let* body := download_photo_bytes photo in
       let* _ := upload_photo bucket key body in
       ret {| existing := existing st ∪ {[key]}; imported := S (imported st);
              skipped := skipped st; errors := errors st |})
      (λ exc,
         ret {| existing := existing st; imported := imported st;
                skipped := skipped st;
                errors := errors st ++ [failure_message filename exc] |}).

(** [limit is not None and index >= limit] *)
Definition limit_reached (limit : option Z) (index : nat) : bool :=
  match limit with
  | Some n => bool_decide (n ≤ Z.of_nat index)
  | None => false
  end.

(** [for index, photo in enumerate(photos): ...] *)
Fixpoint sync_loop (bucket prefix : pystr) (limit : option Z) (index : nat)
    (photos : list Photo) (st : SyncState) : M SyncState :=
  match photos with
  | [] => ret st
  | photo :: rest =>
      if limit_reached limit index then ret st
      else
        let* st' := sync_item bucket prefix photo st in
        sync_loop bucket prefix limit (S index) rest st'
  end.

(** perform_sync *)
Definition perform_sync (fuel : nat) (api : Api) (limit : option Z)
    : M (nat * nat * list pystr) :=
  let* _ := log (EvPerformSync limit) in
  let* bucket := get_s3_client in
  let prefix := ensure_photo_prefix in
  let* existing := list_existing_keys fuel bucket prefix in
  let* st :=
    sync_loop bucket prefix limit 0 (photos api)
      {| existing := existing; imported := 0; skipped := 0; errors := [] |} in
  ret (imported st, skipped st, errors st).

(** [PyiCloudService(apple_id, app_password, cookie_directory=...)] *)
Definition login (apple_id app_password cookie_directory : pystr) : M Api :=
  let* w := get_world in
  let* _ := log (EvLogin apple_id app_password cookie_directory) in
  lift (PyiCloudService E (trace w) apple_id app_password cookie_directory).

(** sync_photos, the handler of POST /sync *)
Definition sync_photos (fuel : nat) (request : SyncRequest)
    (authorization : option pystr) : M Response :=
  let* _ := verify_token authorization in
  let* session_dir := create_session_dir (req_session request) in
  let* api :=
    login (req_apple_id request) (req_app_password request) session_dir in
  if requires_2fa api || requires_2sa api then
    let* session_id := uuid4 in
    let* now := time in
    let* w := get_world in
    let* _ :=
      set_pending
        (<[session_id := {| apple_id := req_apple_id request;
                            app_password := req_app_password request;
                            session_dir := session_dir;
                            created_at := now |}]> (pending_sessions w)) in
    ret (Needs2FA session_id)
  else
    let* (imported, skipped, errors) :=
      perform_sync fuel api (req_limit request) in
    let* session_payload := extract_session_payload session_dir in
    ret (SyncOk imported skipped errors session_payload).

(** sync_with_2fa, the handler of POST /sync/2fa *)
Definition sync_with_2fa (fuel : nat) (payload : TwoFactorRequest)
    (authorization : option pystr) : M Response :=
  let* _ := verify_token authorization in
  let* w := get_world in
  match pending_sessions w !! session_id payload with
  | None => raise (HTTPException 404 (py "Session not found"))
  | Some pending =>
      let* api :=
        login (apple_id pending) (app_password pending)
          (session_dir pending) in
      let* _ :=
        if requires_2fa api then
          let* _ := log (EvValidate2fa (code payload)) in
          let* valid := lift (validate_2fa_code api (code payload)) in
          if valid then ret ()
          else raise (HTTPException 401 (py "Invalid 2FA code"))
        else ret () in
      let* (imported, skipped, errors) := perform_sync fuel api None in
      let* session_payload := extract_session_payload (session_dir pending) in
      let* w' := get_world in
      let* _ := set_pending (delete (session_id payload) (pending_sessions w')) in
      ret (SyncOk imported skipped errors session_payload)
  end.

End Worker.

(** ** Concrete environments, used to run the model *)

Module Demo.

Definition photo (id name : option pystr) (fetch : answer downloaded)
    : Photo :=
  {| ph_id := id; ph_asset_id := None; ph_record_name := None;
     ph_recordName := None; ph_filename := None;
     ph_original_filename := None; ph_file_name := None; ph_name := name;
     download := fetch;
     download_to := λ _, Fails (py "no directory download") |}.

Definition jpeg : bytes := [Byte.xff; Byte.xd8].

(** The collection of the example of the specification. *)
Definition collection : list Photo :=
  [photo (Some (py "a1")) (Some (py "p1.jpg")) (Ok (DBytes jpeg));
   photo (Some (py "a1")) (Some (py "p1.jpg")) (Ok (DBytes jpeg));
   photo None (Some (py "p2.png")) (Ok (DStream jpeg))].

Definition api (needs_2fa needs_2sa : bool) (good_code : pystr)
    (items : list Photo) : Api :=
  {| requires_2fa := needs_2fa; requires_2sa := needs_2sa;
     validate_2fa_code := λ c, Ok (bool_decide (c = good_code));
     photos := items |}.

(** A bucket listed in two pages: the first page ends in a cursor. *)
Definition two_pages (continuation : option pystr) : answer ListResponse :=
  match continuation with
  | None =>
      Ok {| Contents := Some [ {| Key := Some (py "photos/a1-p1.jpg") |} ];
            IsTruncated := true;
            NextContinuationToken := Some (py "next") |}
  | Some _ =>
      Ok {| Contents := Some [ {| Key := Some (py "photos/zz.jpg") |} ];
            IsTruncated := false;
            NextContinuationToken := None |}
  end.

Definition env (a : Api) : Env :=
  {| environ :=
       {[ py "PHOTO_BUCKET" := py "bucket";
          py "WORKER_JWT_SECRET" := py "secret" ]};
     wide_alnum := λ _, false;
     jwt_decode := λ _ _, true;
     guess_type := λ _, None;
     PyiCloudService := λ _ _ _ _, Ok a;
     list_objects_v2 := λ _ _, two_pages;
     put_object := λ _ _ _ _ _, Ok ();
     uuid4_hex := λ history, replicate (S (length history)) 97%N;
     gettempdir := py "/tmp";
     candidate_names := λ _, [py "k3x"; py "q7m"];
     os_error := λ _, None;
     time_time := λ _, PrimFloat.zero |}.

Definition world0 : World :=
  {| pending_sessions := ∅; fs := {[ py "/tmp" := ∅ ]}; trace := [] |}.

Definition bearer : option pystr := Some (py "Bearer token").

(** An account under two-step verification: its login reports
    [requires_2sa] and not [requires_2fa]; its only good code is 123456. *)
Definition two_step : Api := api false true (py "123456") collection.

Definition request : SyncRequest :=
  {| req_apple_id := py "user@example.com"; req_app_password := py "pw";
     req_session := None; req_limit := None |}.

End Demo.

(** ** Notions the properties are stated with *)

(** The object store lists the keys [pages], one inner list per page, from
    the request with cursor [token] on: every page but the last is marked
    truncated and carries a non-empty cursor under which the next page is
    served; an empty page may come with or without a [Contents] field. *)
Fixpoint serves (E : Env) (bucket prefix : pystr) (token : option pystr)
    (pages : list (list pystr)) : Prop :=
  match pages with
  | [] => False
  | page :: rest =>
      ∃ response,
        list_objects_v2 E bucket prefix token = Ok response
        ∧ default [] (Contents response) = (λ k, {| Key := Some k |}) <$> page
        ∧ match rest with
          | [] => IsTruncated response = false
          | _ :: _ =>
              IsTruncated response = true
              ∧ ∃ cursor,
                  NextContinuationToken response = Some cursor
                  ∧ cursor ≠ []
                  ∧ serves E bucket prefix (Some cursor) rest
          end
  end.

(** Running a loop body over a list of items, in order. *)
Fixpoint for_each {A S : Type} (body : A → S → M S) (items : list A)
    (st : S) : M S :=
  match items with
  | [] => ret st
  | x :: rest => let* st' := body x st in for_each body rest st'
  end.

(** The first [min(n, |L|)] items of the collection, all of them without a
    limit. *)
Definition processed_items (limit : option Z) (items : list Photo)
    : list Photo :=
  match limit with
  | None => items
  | Some n => take (Z.to_nat (Z.min n (Z.of_nat (length items)))) items
  end.

(** From [st] to [st'] exactly one of the three outcomes moved, by one. *)
Definition contributes_one (st st' : SyncState) : Prop :=
  (imported st' = S (imported st) ∧ skipped st' = skipped st
   ∧ errors st' = errors st)
  ∨ (imported st' = imported st ∧ skipped st' = S (skipped st)
     ∧ errors st' = errors st)
  ∨ (imported st' = imported st ∧ skipped st' = skipped st
     ∧ ∃ message, errors st' = errors st ++ [message]).

(** Events of fetching one item: everything but uploads, listings, logins,
    code validations and entries into the engine. *)
Definition item_event (ev : Event) : bool :=
  match ev with
  | EvDownload _ | EvDownloadTo _ _ | EvUuid4 _ | EvMkdtemp _ => true
  | _ => false
  end.

(** Events of the engine once entered: those of the items, the uploads and
    the listings. *)
Definition engine_event (ev : Event) : bool :=
  match ev with
  | EvPutObject _ _ _ _ _ | EvListObjects _ _ _ => true
  | _ => item_event ev
  end.

(** The keys known to be in the destination after a history of calls that
    started with the keys [known]: the stored uploads are added. *)
Fixpoint known_after (known : gset pystr) (history : list Event)
    : gset pystr :=
  match history with
  | [] => known
  | EvPutObject _ key _ _ true :: rest => known_after (known ∪ {[key]}) rest
  | _ :: rest => known_after known rest
  end.

(** No call of [put_object] in the history is for a key that was known at
    the start or stored by an earlier call of the history. *)
Fixpoint no_reupload (known : gset pystr) (history : list Event) : bool :=
  match history with
  | [] => true
  | EvPutObject _ key _ _ stored :: rest =>
      bool_decide (key ∉ known)
      && no_reupload (if stored then known ∪ {[key]} else known) rest
  | _ :: rest => no_reupload known rest
  end.

(** The entries into the sync engine a history records, with their limit. *)
Definition sync_runs (history : list Event) : list (option Z) :=
  omap (λ ev, match ev with EvPerformSync limit => Some limit | _ => None end)
    history.

(** The logins a history records, by credential cache directory. *)
Definition logins (history : list Event) : list pystr :=
  omap (λ ev, match ev with
              | EvLogin _ _ cookie_directory => Some cookie_directory
              | _ => None
              end) history.

(** The session identifiers issued so far. *)
Definition issued (history : list Event) : list pystr :=
  omap (λ ev, match ev with EvUuid4 hex => Some hex | _ => None end) history.

(** The three states an item can leave the loop in. *)
Definition skip_state (st : SyncState) : SyncState :=
  {| existing := existing st; imported := imported st;
     skipped := S (skipped st); errors := errors st |}.

Definition import_state (key : pystr) (st : SyncState) : SyncState :=
  {| existing := existing st ∪ {[key]}; imported := S (imported st);
     skipped := skipped st; errors := errors st |}.

Definition error_state (message : pystr) (st : SyncState) : SyncState :=
  {| existing := existing st; imported := imported st;
     skipped := skipped st; errors := errors st ++ [message] |}.

(** The [try] block of the loop, up to the upload. *)
Definition fetch_and_upload (E : Env) (bucket key : pystr) (photo : Photo)
    : M unit :=
  let* body := download_photo_bytes E photo in
  upload_photo E bucket key body.

(** The table of pending sessions only holds identifiers the generator has
    issued. *)
Definition table_issued (w : World) : Prop :=
  ∀ sid, is_Some (pending_sessions w !! sid) → sid ∈ issued (trace w).

(** The world a resume call is in once it has logged in again and, when
    [validated], has submitted the code. *)
Definition resumed_world (w : World) (pending : PendingSession)
    (submitted : list pystr) : World :=
  {| pending_sessions := pending_sessions w; fs := fs w;
     trace := trace w
              ++ EvLogin (apple_id pending) (app_password pending)
                   (session_dir pending)
                 :: (EvValidate2fa <$> submitted) |}.

(** The end of a resume call, from the run of the engine on: lines 297 to
    308 of the source. *)
Definition resume_tail (E : Env) (fuel : nat) (sid dir : pystr) (api : Api)
    : M Response :=
  let* (imported, skipped, errors) := perform_sync E fuel api None in
  let* session_payload := extract_session_payload dir in
  let* w' := get_world in
  let* _ := set_pending (delete sid (pending_sessions w')) in
  ret (SyncOk imported skipped errors session_payload).

(** The codes a history records as submitted for validation. *)
Definition validations (history : list Event) : list pystr :=
  omap (λ ev, match ev with EvValidate2fa code => Some code | _ => None end)
    history.

(** A computation keeps the table within the issued identifiers. *)
Definition keeps_table_issued {A} (m : M A) : Prop :=
  ∀ w, table_issued w → table_issued (m w).2.

(** The bytes a download hands over in memory, if it does. *)
Definition in_memory (d : downloaded) : option bytes :=
  match d with
  | DBytes content | DResponse content | DStream content
  | DDict (Some content) => Some content
  | DDict None | DOther => None
  end.

(** What the first download call of an item settles without a directory
    download: its failure, or the bytes handed over in memory. *)
Definition direct_result (photo : Photo) : option (outcome bytes) :=
  match download photo with
  | Fails text => Some (Raise (Exception text))
  | Ok d => Return <$> in_memory d
  end.

(** A world with one more event in its history. *)
Definition logged (w : World) (ev : Event) : World :=
  {| pending_sessions := pending_sessions w; fs := fs w;
     trace := trace w ++ [ev] |}.


(** Calls of [list_objects_v2]. *)
Definition is_listing (ev : Event) : bool :=
  match ev with EvListObjects _ _ _ => true | _ => false end.

(** An environment with another object store listing, and one with other
    environment variables. *)
Definition with_listing (E : Env)
    (listing : pystr → pystr → option pystr → answer ListResponse) : Env :=
  {| environ := environ E; wide_alnum := wide_alnum E;
     jwt_decode := jwt_decode E; guess_type := guess_type E;
     PyiCloudService := PyiCloudService E; list_objects_v2 := listing;
     put_object := put_object E; uuid4_hex := uuid4_hex E;
     gettempdir := gettempdir E; candidate_names := candidate_names E;
     os_error := os_error E; time_time := time_time E |}.

Definition with_environ (E : Env) (variables : gmap pystr pystr) : Env :=
  {| environ := variables; wide_alnum := wide_alnum E;
     jwt_decode := jwt_decode E; guess_type := guess_type E;
     PyiCloudService := PyiCloudService E;
     list_objects_v2 := list_objects_v2 E;
     put_object := put_object E; uuid4_hex := uuid4_hex E;
     gettempdir := gettempdir E; candidate_names := candidate_names E;
     os_error := os_error E; time_time := time_time E |}.

(** An event is not an upload, or it is an upload into [bucket], of a key
    that extends [prefix], with a content type that is not empty. *)
Definition put_under (bucket prefix : pystr) (ev : Event) : Prop :=
  match ev with
  | EvPutObject b key _ content_type _ =>
      b = bucket ∧ (∃ rest, key = prefix ++ rest) ∧ content_type ≠ []
  | _ => True
  end.

(** The keys of the uploads a history records as stored. *)
Definition stored_puts (history : list Event) : list pystr :=
  omap (λ ev, match ev with
              | EvPutObject _ key _ _ true => Some key
              | _ => None
              end) history.

(** The filename of an item when it does not depend on a random name: the
    first filename attribute that is not empty, or else the identifier
    followed by [.jpg]. *)
Definition static_filename (photo : Photo) : option pystr :=
  match first_truthy
          [ph_filename photo; ph_original_filename photo;
           ph_file_name photo; ph_name photo] with
  | Some value => Some value
  | None => (λ identifier, identifier ++ py ".jpg")
              <$> get_photo_identifier photo
  end.

(** The key of the item is already known. *)
Definition already_present (E : Env) (prefix : pystr) (known : gset pystr)
    (photo : Photo) : Prop :=
  ∃ filename,
    static_filename photo = Some filename
    ∧ item_key E prefix photo filename ∈ known.

(** Every run of a computation takes a world to one related to it by [R]. *)
Definition steps (R : World → World → Prop) {A} (m : M A) : Prop :=
  ∀ w, R w (m w).2.

(** No directory has been removed. *)
Definition dirs_kept (w w' : World) : Prop := dom (fs w) ⊆ dom (fs w').

(** No session has been removed from the table. *)
Definition sessions_kept (w w' : World) : Prop :=
  dom (pending_sessions w) ⊆ dom (pending_sessions w').

(** The table is as it was, or as it was without the session [sid]. *)
Definition at_most_resolved (sid : pystr) (w w' : World) : Prop :=
  pending_sessions w' = pending_sessions w
  ∨ pending_sessions w' = delete sid (pending_sessions w).

(** The credential cache directory of every pending session exists. *)
Definition dirs_exist (w : World) : Prop :=
  ∀ sid s, pending_sessions w !! sid = Some s → session_dir s ∈ dom (fs w).

(** A world in which every session directory exists leads to one in which
    every session directory exists. *)
Definition dirs_exist_kept (w w' : World) : Prop :=
  dirs_exist w → dirs_exist w'.

(** A computation only adds events satisfying [P] to the history and leaves
    the session table alone. *)
Definition emits {A} (P : Event → Prop) (m : M A) : Prop :=
  ∀ w, pending_sessions (m w).2 = pending_sessions w
       ∧ ∃ new, trace (m w).2 = trace w ++ new ∧ Forall P new.

(** A computation does not depend on fuel. *)
Definition total {A} (m : M A) : Prop := ∀ w, (m w).1 ≠ OutOfFuel.

(** * Properties *)

(** ** Reasoning about computations *)

Section Computations.
Context {A B : Type}.
Implicit Types (P : Event → Prop).

Lemma emits_ret P (a : A) : emits P (ret a).
Proof. intros w. split; [done|]. exists []. by rewrite app_nil_r. Qed.

Lemma emits_raise P (e : exn) : emits P (raise (A := A) e).
Proof. intros w. split; [done|]. exists []. by rewrite app_nil_r. Qed.

Lemma emits_lift P (a : answer A) : emits P (lift a).
Proof. destruct a; [apply emits_ret|apply emits_raise]. Qed.

Lemma emits_bind P (m : M A) (k : A → M B) :
  emits P m → (∀ a, emits P (k a)) → emits P (bind m k).
Proof.
  intros Hm Hk w. unfold bind.
  destruct (Hm w) as (Hp & new & Ht & Hnew).
  destruct (m w) as [[a|e|] w1]; simpl in *; [|by eauto..].
  destruct (Hk a w1) as (Hp' & new' & Ht' & Hnew').
  split; [congruence|]. exists (new ++ new').
  rewrite Ht', Ht, (assoc_L (++)). split; [done|]. by apply Forall_app.
Qed.

Lemma emits_try_except P (body : M A) (handler : exn → M A) :
  emits P body → (∀ e, emits P (handler e)) → emits P (try_except body handler).
Proof.
  intros Hm Hk w. unfold try_except.
  destruct (Hm w) as (Hp & new & Ht & Hnew).
  destruct (body w) as [[a|e|] w1]; simpl in *; [by eauto| |by eauto].
  destruct (Hk e w1) as (Hp' & new' & Ht' & Hnew').
  split; [congruence|]. exists (new ++ new').
  rewrite Ht', Ht, (assoc_L (++)). split; [done|]. by apply Forall_app.
Qed.

Lemma emits_mono P (Q : Event → Prop) (m : M A) :
  (∀ ev, P ev → Q ev) → emits P m → emits Q m.
Proof.
  intros HPQ Hm w. destruct (Hm w) as (Hp & new & Ht & Hnew).
  split; [done|]. exists new. split; [done|]. by eapply Forall_impl.
Qed.

Lemma total_ret (a : A) : total (ret a).
Proof. by intros w. Qed.

Lemma total_raise (e : exn) : total (raise (A := A) e).
Proof. by intros w. Qed.

Lemma total_lift (a : answer A) : total (lift a).
Proof. by destruct a. Qed.

Lemma total_bind (m : M A) (k : A → M B) :
  total m → (∀ a, total (k a)) → total (bind m k).
Proof.
  intros Hm Hk w. unfold bind. specialize (Hm w).
  destruct (m w) as [[a|e|] w1]; simpl in *; [apply Hk|done..].
Qed.

Lemma total_try_except (body : M A) (handler : exn → M A) :
  total body → (∀ e, total (handler e)) → total (try_except body handler).
Proof.
  intros Hm Hk w. unfold try_except. specialize (Hm w).
  destruct (body w) as [[a|e|] w1]; simpl in *; [done|apply Hk|done].
Qed.

End Computations.

Lemma emits_get_world P : emits P get_world.
Proof. intros w. split; [done|]. exists []. by rewrite app_nil_r. Qed.

Lemma emits_set_fs P f : emits P (set_fs f).
Proof. intros w. split; [done|]. exists []. simpl. by rewrite app_nil_r. Qed.

Lemma emits_log (P : Event → Prop) ev : P ev → emits P (log ev).
Proof. intros Hev w. split; [done|]. exists [ev]. split; [done|]. by constructor. Qed.

Lemma total_get_world : total get_world.
Proof. by intros w. Qed.

Lemma total_set_fs f : total (set_fs f).
Proof. by intros w. Qed.

Lemma total_set_pending t : total (set_pending t).
Proof. by intros w. Qed.

Lemma total_log ev : total (log ev).
Proof. by intros w. Qed.

(** One step of a proof that a computation only emits certain events, or
    that it is total: the rule of the outermost construct. *)
Ltac run_step :=
  lazymatch goal with
  | |- emits _ (bind _ _) => apply emits_bind; [|intros ?]
  | |- emits _ (try_except _ _) => apply emits_try_except; [|intros ?]
  | |- emits _ (ret _) => apply emits_ret
  | |- emits _ (raise _) => apply emits_raise
  | |- emits _ (lift _) => apply emits_lift
  | |- emits _ get_world => apply emits_get_world
  | |- emits _ (set_fs _) => apply emits_set_fs
  | |- emits _ (log _) => apply emits_log; done
  | |- total (bind _ _) => apply total_bind; [|intros ?]
  | |- total (try_except _ _) => apply total_try_except; [|intros ?]
  | |- total (ret _) => apply total_ret
  | |- total (raise _) => apply total_raise
  | |- total (lift _) => apply total_lift
  | |- total get_world => apply total_get_world
  | |- total (set_fs _) => apply total_set_fs
  | |- total (set_pending _) => apply total_set_pending
  | |- total (log _) => apply total_log
  | |- _ (match ?x with _ => _ end) => destruct x
  end.

Ltac run := repeat run_step.

Section Engine.
Context (E : Env).

Lemma uuid4_emits : emits (λ ev, item_event ev = true) (uuid4 E).
Proof. unfold uuid4. run. Qed.

Lemma uuid4_total : total (uuid4 E).
Proof. unfold uuid4. run. Qed.

Lemma mkdtemp_emits prefix : emits (λ ev, item_event ev = true) (mkdtemp E prefix).
Proof. unfold mkdtemp. run. Qed.

Lemma mkdtemp_total prefix : total (mkdtemp E prefix).
Proof. unfold mkdtemp. run. Qed.

Lemma get_photo_filename_emits photo :
  emits (λ ev, item_event ev = true) (get_photo_filename E photo).
Proof. unfold get_photo_filename. run; apply uuid4_emits. Qed.

Lemma get_photo_filename_total photo : total (get_photo_filename E photo).
Proof. unfold get_photo_filename. run; apply uuid4_total. Qed.

(** Resolving a filename never fails. *)
Lemma get_photo_filename_returns photo w :
  ∃ filename, (get_photo_filename E photo w).1 = Return filename.
Proof.
  unfold get_photo_filename.
  destruct (first_truthy _); [by eexists|].
  destruct (get_photo_identifier _); by eexists.
Qed.

Lemma download_photo_bytes_emits photo :
  emits (λ ev, item_event ev = true) (download_photo_bytes E photo).
Proof.
  unfold download_photo_bytes.
  run; first [apply mkdtemp_emits | apply get_photo_filename_emits].
Qed.

Lemma download_photo_bytes_total photo : total (download_photo_bytes E photo).
Proof.
  unfold download_photo_bytes.
  run; first [apply mkdtemp_total | apply get_photo_filename_total].
Qed.

End Engine.


(** ** Key Builder *)

Lemma keep_char_cases wide c :
  keep_char wide c = if (c <? 128)%N then ascii_safe c else isalnum wide c.
Proof.
  unfold keep_char, ascii_safe, isalnum.
  destruct (N.ltb_spec c 128) as [Hlt|Hge]; [reflexivity|].
  assert ((c =? 45)%N = false) as -> by (apply N.eqb_neq; lia).
  assert ((c =? 95)%N = false) as -> by (apply N.eqb_neq; lia).
  by rewrite !orb_false_r.
Qed.

(** C2, as the specification words it, fails: an identifier made of the
    letter e with an acute accent (U+00E9), which [str.isalnum] accepts, is
    kept whole although the letter is outside [[A-Za-z0-9_-]]. *)
Lemma safe_identifier_keeps_accented_letter :
  ¬ ∀ (wide : pychar → bool) (identifier : option pystr),
      Forall (λ c, ascii_safe c = true) (safe_identifier wide identifier).
Proof.
  intros H. specialize (H (λ _, false) (Some [233%N])).
  vm_compute in H. by inversion H.
Qed.

(** C2, amended: the sanitized identifier is the identifier with exactly the
    characters kept, in order, that are alphanumeric for [str.isalnum] or are
    a hyphen or an underscore, the others being dropped without replacement;
    among the ASCII characters the ones kept are exactly [[A-Za-z0-9_-]],
    and beyond ASCII the ones [str.isalnum] accepts. *)
Theorem safe_identifier_filter (wide : pychar → bool)
    (identifier : option pystr) :
  safe_identifier wide identifier
  = filter (λ c, (if (c <? 128)%N then ascii_safe c else isalnum wide c) = true)
      (or_else identifier [])
  ∧ safe_identifier wide identifier `sublist_of` or_else identifier []
  ∧ Forall (λ c, (c <? 128)%N = true → ascii_safe c = true)
      (safe_identifier wide identifier).
Proof.
  unfold safe_identifier. split_and!.
  - apply list_filter_iff. intros c. by rewrite keep_char_cases.
  - apply sublist_filter.
  - apply Forall_forall. intros c [Hkeep _]%list_elem_of_filter Hlt.
    by rewrite keep_char_cases, Hlt in Hkeep.
Qed.

(** C7: the destination key is [prefix ++ safe ++ "-" ++ filename] when the
    sanitized identifier [safe] is not empty and [prefix ++ filename] when it
    is, and two items with the same identifier and the same resolved filename
    get the same key. *)
Theorem item_key_deterministic (E : Env) (prefix : pystr) (p q : Photo)
    (filename_p filename_q : pystr) :
  get_photo_identifier p = get_photo_identifier q →
  filename_p = filename_q →
  item_key E prefix p filename_p = item_key E prefix q filename_q
  ∧ item_key E prefix p filename_p
    = (let safe := safe_identifier (wide_alnum E) (get_photo_identifier p) in
       if decide (safe = []) then prefix ++ filename_p
       else prefix ++ safe ++ py "-" ++ filename_p).
Proof.
  intros Hid ->. unfold item_key. rewrite Hid. split; [reflexivity|].
  unfold destination_key. simpl.
  destruct (safe_identifier _ _); by case_decide.
Qed.

Lemma item_key_deterministic_witness :
  item_key (Demo.env (Demo.api false false [] [])) (py "photos/")
    (Demo.photo (Some (py "a1")) (Some (py "p1.jpg")) (Ok (DBytes [])))
    (py "p1.jpg")
  = py "photos/a1-p1.jpg".
Proof.
  pose proof (item_key_deterministic (Demo.env (Demo.api false false [] []))
    (py "photos/")
    (Demo.photo (Some (py "a1")) (Some (py "p1.jpg")) (Ok (DBytes [])))
    (Demo.photo (Some (py "a1")) (Some (py "p1.jpg")) (Ok (DStream [])))
    (py "p1.jpg") (py "p1.jpg") eq_refl eq_refl) as [_ H].
  rewrite H. vm_compute. reflexivity.
Defined.

(** ** Existing-Object Lister *)

Lemma add_page_keys_objects keys response page :
  default [] (Contents response) = (λ k, {| Key := Some k |}) <$> page →
  Forall (λ k, k ≠ []) page →
  add_page_keys keys response = keys ∪ list_to_set page.
Proof.
  unfold add_page_keys. intros -> Hne. revert keys.
  induction Hne as [|k page Hk _ IH]; intros keys; simpl.
  - set_solver.
  - destruct k as [|c k]; [done|]. simpl. rewrite IH. set_solver.
Qed.

Lemma list_existing_keys_loop_serves E bucket prefix pages :
  ∀ continuation keys fuel w,
    serves E bucket prefix
      (if truthy_opt continuation then continuation else None) pages →
    Forall (Forall (λ k, k ≠ [])) pages →
    (length pages ≤ fuel)%nat →
    (list_existing_keys_loop E fuel bucket prefix keys continuation w).1
    = Return (keys ∪ list_to_set (concat pages)).
Proof.
  induction pages as [|page rest IH]; intros continuation keys fuel w Hs Hne Hf;
    [done|].
  destruct fuel as [|fuel]; [simpl in Hf; lia|].
  destruct Hs as (response & Hr & Hpage & Hrest).
  apply Forall_cons in Hne as [Hp Hne].
  simpl. unfold bind at 1. simpl. unfold bind at 1. rewrite Hr. simpl.
  rewrite (add_page_keys_objects _ _ page Hpage Hp).
  destruct rest as [|page' rest].
  - rewrite Hrest. simpl. f_equal. set_solver.
  - destruct Hrest as (-> & cursor & Hc & Hcne & Hs').
    rewrite IH; [f_equal; set_solver| |done|simpl in *; lia].
    rewrite Hc. destruct cursor; [done|]. exact Hs'.
Qed.

(** C6: when the store serves the object keys under the prefix as any
    sequence of pages, each truncated page naming the cursor of the next, the
    lister returns (with fuel for that many requests) the set of all the
    keys; the result is the same for any other division of the same keys into
    pages, and a destination without objects gives the empty set. *)
Theorem list_existing_keys_complete (E : Env) (bucket prefix : pystr)
    (pages : list (list pystr)) (fuel : nat) (w : World) :
  serves E bucket prefix None pages →
  Forall (Forall (λ k, k ≠ [])) pages →
  (length pages ≤ fuel)%nat →
  (list_existing_keys E fuel bucket prefix w).1
  = Return (list_to_set (concat pages))
  ∧ (concat pages = [] →
     (list_existing_keys E fuel bucket prefix w).1 = Return ∅)
  ∧ ∀ (E' : Env) (pages' : list (list pystr)) (fuel' : nat) (w' : World),
      serves E' bucket prefix None pages' →
      Forall (Forall (λ k, k ≠ [])) pages' →
      (length pages' ≤ fuel')%nat →
      (∀ k, k ∈ concat pages' ↔ k ∈ concat pages) →
      (list_existing_keys E' fuel' bucket prefix w').1
      = (list_existing_keys E fuel bucket prefix w).1.
Proof.
  intros Hs Hne Hf.
  assert (∀ E0 pages0 fuel0 w0,
            serves E0 bucket prefix None pages0 →
            Forall (Forall (λ k, k ≠ [])) pages0 →
            (length pages0 ≤ fuel0)%nat →
            (list_existing_keys E0 fuel0 bucket prefix w0).1
            = Return (list_to_set (concat pages0))) as Hall.
  { intros E0 pages0 fuel0 w0 Hs0 Hne0 Hf0. unfold list_existing_keys.
    rewrite (list_existing_keys_loop_serves E0 bucket prefix pages0);
      [f_equal; set_solver|done..]. }
  split_and!.
  - by apply Hall.
  - intros Hempty. rewrite (Hall E pages) by done. by rewrite Hempty.
  - intros E' pages' fuel' w' Hs' Hne' Hf' Hsame.
    rewrite (Hall E pages), (Hall E' pages') by done.
    f_equal. apply set_eq. intros k.
    rewrite !elem_of_list_to_set. apply Hsame.
Qed.

Lemma two_pages_serves (a : Api) :
  serves (Demo.env a) (py "bucket") (py "photos/") None
    [[py "photos/a1-p1.jpg"]; [py "photos/zz.jpg"]].
Proof.
  exists {| Contents := Some [ {| Key := Some (py "photos/a1-p1.jpg") |} ];
            IsTruncated := true;
            NextContinuationToken := Some (py "next") |}.
  split_and!; [reflexivity..|].
  exists (py "next"). split_and!; [reflexivity|done|].
  exists {| Contents := Some [ {| Key := Some (py "photos/zz.jpg") |} ];
            IsTruncated := false;
            NextContinuationToken := None |}.
  split_and!; reflexivity.
Qed.

Lemma list_existing_keys_complete_witness :
  (list_existing_keys (Demo.env (Demo.api false false [] [])) 2
     (py "bucket") (py "photos/") Demo.world0).1
  = Return (list_to_set [py "photos/a1-p1.jpg"; py "photos/zz.jpg"]).
Proof.
  apply (list_existing_keys_complete (Demo.env (Demo.api false false [] []))
    (py "bucket") (py "photos/")
    [[py "photos/a1-p1.jpg"]; [py "photos/zz.jpg"]] 2 Demo.world0).
  - apply two_pages_serves.
  - repeat constructor; done.
  - simpl. lia.
Defined.

(** A destination with no object, listed as one page without [Contents]. *)
Example list_existing_keys_empty_bucket :
  (list_existing_keys
     {| environ := ∅; wide_alnum := λ _, false; jwt_decode := λ _ _, true;
        guess_type := λ _, None;
        PyiCloudService := λ _ _ _ _, Fails [];
        list_objects_v2 := λ _ _ _,
          Ok {| Contents := None; IsTruncated := false;
                NextContinuationToken := None |};
        put_object := λ _ _ _ _ _, Ok ();
        uuid4_hex := λ _, []; gettempdir := py "/tmp";
        candidate_names := λ _, []; os_error := λ _, None;
        time_time := λ _, PrimFloat.zero |}
     1 (py "bucket") (py "photos/") Demo.world0).1
  = Return ∅.
Proof. reflexivity. Qed.

(** ** Sync Engine *)

Lemma known_after_app known a b :
  known_after known (a ++ b) = known_after (known_after known a) b.
Proof.
  revert known. induction a as [|ev a IH]; intros known; [done|].
  destruct ev as [| | | | | |? ? ? ? []| | |]; simpl; apply IH.
Qed.

Lemma no_reupload_app known a b :
  no_reupload known (a ++ b)
  = no_reupload known a && no_reupload (known_after known a) b.
Proof.
  revert known. induction a as [|ev a IH]; intros known; [done|].
  destruct ev as [| | | | | |? ? ? ? []| | |]; simpl; rewrite ?IH;
    by rewrite ?andb_assoc.
Qed.

Lemma known_after_items known q :
  Forall (λ ev, item_event ev = true) q → known_after known q = known.
Proof. induction 1 as [|[] q Hev _ IH]; simpl; done. Qed.

Lemma no_reupload_items known q :
  Forall (λ ev, item_event ev = true) q → no_reupload known q = true.
Proof. induction 1 as [|[] q Hev _ IH]; simpl; done. Qed.

Lemma known_after_items_app known q rest :
  Forall (λ ev, item_event ev = true) q →
  known_after known (q ++ rest) = known_after known rest.
Proof.
  intros Hq. by rewrite known_after_app, (known_after_items known q Hq).
Qed.

Lemma no_reupload_items_app known q rest :
  Forall (λ ev, item_event ev = true) q →
  no_reupload known (q ++ rest) = no_reupload known rest.
Proof.
  intros Hq.
  by rewrite no_reupload_app, (no_reupload_items known q Hq),
    (known_after_items known q Hq).
Qed.

Lemma known_after_grows known history : known ⊆ known_after known history.
Proof.
  revert known. induction history as [|ev history IH]; intros known; [done|].
  destruct ev as [| | | | | |? ? ? ? []| | |]; simpl;
    try apply IH. etrans; [|apply IH]. set_solver.
Qed.

(** What [no_reupload] says, spelled out on the history. *)
Lemma no_reupload_spec known history :
  no_reupload known history = true →
  ∀ before bucket key body content_type stored after,
    history = before ++ EvPutObject bucket key body content_type stored :: after →
    (key ∉ known)
    ∧ (∀ bucket' body' content_type',
         EvPutObject bucket' key body' content_type' true ∉ before).
Proof.
  intros Hno before bucket key body ct stored after ->.
  rewrite no_reupload_app in Hno. apply andb_true_iff in Hno as [_ Hput].
  simpl in Hput. apply andb_true_iff in Hput as [Hkey _].
  apply bool_decide_eq_true in Hkey. split.
  - intros Hin. apply Hkey. by apply known_after_grows.
  - intros bucket' body' ct' (a & b & ->)%list_elem_of_split.
    apply Hkey. rewrite known_after_app. simpl.
    apply known_after_grows. set_solver.
Qed.

Lemma item_events_engine q :
  Forall (λ ev, item_event ev = true) q →
  Forall (λ ev, engine_event ev = true) q.
Proof. intros Hq. eapply Forall_impl; [exact Hq|]. by intros []. Qed.

Section SyncItem.
Context (E : Env) (bucket prefix : pystr).

(** An upload adds exactly one [put_object] call to the history and returns
    exactly when the object was stored. *)
Lemma upload_photo_run key body w :
  ∃ content_type stored,
    trace (upload_photo E bucket key body w).2
    = trace w ++ [EvPutObject bucket key body content_type stored]
    ∧ pending_sessions (upload_photo E bucket key body w).2
      = pending_sessions w
    ∧ (upload_photo E bucket key body w).1
      = (if stored then Return ()
         else Raise (Exception
                (match put_object E (trace w) bucket key body content_type with
                 | Fails text => text | Ok _ => [] end))).
Proof.
  exists (or_else (guess_type E key) (py "application/octet-stream")).
  unfold upload_photo, bind, get_world, log, lift. simpl.
  destruct (put_object E _ _ _ _ _) as [[]|text]; simpl.
  - by exists true.
  - by exists false.
Qed.

(** The body of the loop in its three cases. *)
Lemma sync_item_cases photo st w :
  ∃ filename w1,
    get_photo_filename E photo w = (Return filename, w1)
    ∧ let key := item_key E prefix photo filename in
      if bool_decide (key ∈ existing st)
      then sync_item E bucket prefix photo st w = (Return (skip_state st), w1)
      else match fetch_and_upload E bucket key photo w1 with
           | (Return _, w2) =>
               sync_item E bucket prefix photo st w
               = (Return (import_state key st), w2)
           | (Raise exc, w2) =>
               sync_item E bucket prefix photo st w
               = (Return (error_state (failure_message filename exc) st), w2)
           | (OutOfFuel, _) => False
           end.
Proof.
  destruct (get_photo_filename_returns E photo w) as [filename Hf].
  destruct (get_photo_filename E photo w) as [r w1] eqn:Hrun.
  simpl in Hf. subst r. exists filename, w1. split; [done|]. simpl.
  assert (sync_item E bucket prefix photo st w
          = (let key := item_key E prefix photo filename in
             if bool_decide (key ∈ existing st)
             then (Return (skip_state st), w1)
             else try_except
                    (let* body := download_photo_bytes E photo in
                     let* _ := upload_photo E bucket key body in
                     ret (import_state key st))
                    (λ exc,
                       ret (error_state (failure_message filename exc) st))
                    w1)) as ->.
  { unfold sync_item, bind at 1. rewrite Hrun. simpl.
    by case_bool_decide. }
  simpl. case_bool_decide; [done|].
  unfold try_except, fetch_and_upload, bind.
  pose proof (download_photo_bytes_total E photo w1) as Hd.
  destruct (download_photo_bytes E photo w1) as [[body|exc|] w2];
    simpl in *; [|done..].
  destruct (upload_photo_run (item_key E prefix photo filename) body w2)
    as (ct & stored & _ & _ & Hup).
  destruct (upload_photo E bucket _ body w2) as [r w3]. simpl in Hup.
  subst r. by destruct stored.
Qed.

(** The body of the loop always returns; what it adds to the history are
    events of the engine, among them at most one upload, of a key that was
    not known. *)
Lemma sync_item_run photo st w :
  ∃ st' w' new,
    sync_item E bucket prefix photo st w = (Return st', w')
    ∧ contributes_one st st'
    ∧ pending_sessions w' = pending_sessions w
    ∧ trace w' = trace w ++ new
    ∧ Forall (λ ev, engine_event ev = true) new
    ∧ no_reupload (existing st) new = true
    ∧ existing st' = known_after (existing st) new.
Proof.
  destruct (sync_item_cases photo st w) as (filename & w1 & Hrun & Hcases).
  destruct (get_photo_filename_emits E photo w) as (Hp0 & q0 & Ht0 & Hq0).
  rewrite Hrun in Hp0, Ht0. simpl in *.
  destruct (bool_decide _) eqn:Hin.
  { exists (skip_state st), w1, q0.
    split_and!; [done|right; left; done|done|done| | |].
    - by apply item_events_engine.
    - by apply no_reupload_items.
    - by rewrite known_after_items. }
  apply bool_decide_eq_false in Hin.
  unfold fetch_and_upload, bind in Hcases.
  destruct (download_photo_bytes_emits E photo w1) as (Hp1 & q1 & Ht1 & Hq1).
  destruct (download_photo_bytes E photo w1) as [[body|exc|] w2];
    simpl in *; [| |done].
  - destruct (upload_photo_run (item_key E prefix photo filename) body w2)
      as (ct & stored & Ht2 & Hp2 & Hout).
    destruct (upload_photo E bucket _ body w2) as [r w3]. simpl in *.
    subst r.
    assert (Forall (λ ev, engine_event ev = true)
              (q0 ++ q1 ++ [EvPutObject bucket
                 (item_key E prefix photo filename) body ct stored])) as Hall.
    { rewrite !Forall_app. split_and!; [by apply item_events_engine..|].
      by repeat constructor. }
    assert (trace w3
            = trace w ++ q0 ++ q1 ++ [EvPutObject bucket
                (item_key E prefix photo filename) body ct stored]) as Htrace.
    { by rewrite Ht2, Ht1, Ht0, <-!(assoc_L (++)). }
    destruct stored.
    + eexists _, w3, _.
      split_and!; [exact Hcases|left; done|congruence|exact Htrace|done| |].
      * rewrite !no_reupload_items_app by done.
        simpl. by rewrite bool_decide_eq_true_2.
      * by rewrite !known_after_items_app by done.
    + eexists _, w3, _.
      split_and!; [exact Hcases|right; right; simpl; eauto|congruence
                  |exact Htrace|done| |].
      * rewrite !no_reupload_items_app by done.
        simpl. by rewrite bool_decide_eq_true_2.
      * by rewrite !known_after_items_app by done.
  - exists (error_state (failure_message filename exc) st), w2, (q0 ++ q1).
    split_and!; [done|right; right; simpl; eauto|congruence| | | |].
    + by rewrite Ht1, Ht0, <-(assoc_L (++)).
    + rewrite Forall_app. split; by apply item_events_engine.
    + rewrite no_reupload_items_app by done. by apply no_reupload_items.
    + rewrite known_after_items_app by done. by rewrite known_after_items.
Qed.

(** The loop always returns. *)
Lemma sync_loop_run limit photos :
  ∀ index st w,
    ∃ st' w' new,
      sync_loop E bucket prefix limit index photos st w = (Return st', w')
      ∧ pending_sessions w' = pending_sessions w
      ∧ trace w' = trace w ++ new
      ∧ Forall (λ ev, engine_event ev = true) new
      ∧ no_reupload (existing st) new = true
      ∧ existing st' = known_after (existing st) new.
Proof.
  induction photos as [|photo rest IH]; intros index st w; simpl.
  { exists st, w, []. by rewrite app_nil_r. }
  destruct (limit_reached limit index).
  { exists st, w, []. by rewrite app_nil_r. }
  unfold bind.
  destruct (sync_item_run photo st w)
    as (st1 & w1 & new1 & -> & _ & Hp1 & Ht1 & Hev1 & Hno1 & Hk1).
  destruct (IH (S index) st1 w1)
    as (st2 & w2 & new2 & -> & Hp2 & Ht2 & Hev2 & Hno2 & Hk2).
  exists st2, w2, (new1 ++ new2).
  split_and!; [done|congruence| | | |].
  - by rewrite Ht2, Ht1, <-(assoc_L (++)).
  - by apply Forall_app.
  - rewrite no_reupload_app, Hno1. simpl. by rewrite <-Hk1.
  - by rewrite known_after_app, <-Hk1.
Qed.

(** With a limit [n] the loop runs its body on the items before index [n]. *)
Lemma sync_loop_for_each limit photos :
  ∀ index st w,
    sync_loop E bucket prefix limit index photos st w
    = for_each (sync_item E bucket prefix)
        (match limit with
         | None => photos
         | Some n => take (Z.to_nat (n - Z.of_nat index)) photos
         end) st w.
Proof.
  induction photos as [|photo rest IH]; intros index st w.
  { destruct limit; by rewrite ?take_nil. }
  simpl. destruct limit as [n|]; simpl.
  - case_bool_decide.
    + by replace (Z.to_nat (n - Z.of_nat index)) with 0%nat by lia.
    + replace (Z.to_nat (n - Z.of_nat index))
        with (S (Z.to_nat (n - Z.of_nat (S index)))) by lia.
      simpl. unfold bind. destruct (sync_item _ _ _ _ _ _) as [[st'| |] w'];
        [|done..].
      apply (IH (S index)).
  - unfold bind. destruct (sync_item _ _ _ _ _ _) as [[st'| |] w']; [|done..].
    apply (IH (S index)).
Qed.

(** Every item the body runs on moves the three counters by one in all. *)
Lemma for_each_sync_item_counts items :
  ∀ st w,
    ∃ st' w',
      for_each (sync_item E bucket prefix) items st w = (Return st', w')
      ∧ (imported st' + skipped st' + length (errors st')
         = imported st + skipped st + length (errors st) + length items)%nat.
Proof.
  induction items as [|photo rest IH]; intros st w; simpl.
  { exists st, w. split; [done|lia]. }
  unfold bind.
  destruct (sync_item_run photo st w) as (st1 & w1 & new1 & -> & Hone & _).
  destruct (IH st1 w1) as (st2 & w2 & -> & Hsum).
  exists st2, w2. split; [done|].
  destruct Hone as [(Hi & Hs & He)|[(Hi & Hs & He)|(Hi & Hs & msg & He)]];
    rewrite Hi, Hs, He, ?length_app in Hsum; simpl in Hsum; lia.
Qed.

End SyncItem.

Lemma processed_items_take limit (items : list Photo) :
  match limit with
  | None => items
  | Some n => take (Z.to_nat (n - Z.of_nat 0)) items
  end = processed_items limit items.
Proof.
  destruct limit as [n|]; [|done]. simpl. rewrite Z.sub_0_r.
  destruct (Z.le_gt_cases n (Z.of_nat (length items))).
  - by rewrite Z.min_l.
  - rewrite Z.min_r, Nat2Z.id, !take_ge by lia. done.
Qed.

(** C3: a run with limit [n] over the collection [L] runs the loop body on
    exactly the first [min(n, |L|)] items of [L], in order (on all of [L]
    without a limit); the body moves exactly one of [imported], [skipped]
    and [errors], by one; and whenever the bucket is configured and the
    listing returns, the run returns counters whose sum is the number of
    items processed, which is at most [|L|]. *)
Theorem perform_sync_processes_limit (E : Env) (fuel : nat) (api : Api)
    (limit : option Z) (w : World) :
  let processed := processed_items limit (photos api) in
  (∀ bucket prefix st w0,
     sync_loop E bucket prefix limit 0 (photos api) st w0
     = for_each (sync_item E bucket prefix) processed st w0)
  ∧ (∀ bucket prefix photo st w0,
       ∃ st' w1,
         sync_item E bucket prefix photo st w0 = (Return st', w1)
         ∧ contributes_one st st')
  ∧ (length processed ≤ length (photos api))%nat
  ∧ (∀ bucket w1 keys w2,
       get_s3_client E (log (EvPerformSync limit) w).2 = (Return bucket, w1) →
       list_existing_keys E fuel bucket (ensure_photo_prefix E) w1
       = (Return keys, w2) →
       ∃ st' w3,
         for_each (sync_item E bucket (ensure_photo_prefix E)) processed
           {| existing := keys; imported := 0; skipped := 0; errors := [] |}
           w2
         = (Return st', w3)
         ∧ perform_sync E fuel api limit w
           = (Return (imported st', skipped st', errors st'), w3)
         ∧ (imported st' + skipped st' + length (errors st')
            = length processed)%nat).
Proof.
  intros processed. split_and!.
  - intros bucket prefix st w0.
    by rewrite sync_loop_for_each, processed_items_take.
  - intros bucket prefix photo st w0.
    destruct (sync_item_run E bucket prefix photo st w0)
      as (st' & w1 & new & Hrun & Hone & _).
    by exists st', w1.
  - unfold processed, processed_items. destruct limit; [|done].
    rewrite length_take. lia.
  - intros bucket w1 keys w2 Hbucket Hkeys.
    destruct (for_each_sync_item_counts E bucket (ensure_photo_prefix E)
                processed
                {| existing := keys; imported := 0; skipped := 0;
                   errors := [] |} w2) as (st' & w3 & Hrun & Hsum).
    exists st', w3. split_and!; [done| |simpl in Hsum; lia].
    unfold perform_sync, bind at 1.
    destruct (log (EvPerformSync limit) w) as [[[]| |] w0] eqn:Hlog;
      try discriminate Hlog; simpl in Hbucket.
    unfold bind at 1. rewrite Hbucket.
    unfold bind at 1. rewrite Hkeys.
    unfold bind. rewrite sync_loop_for_each, processed_items_take.
    fold processed. by rewrite Hrun.
Qed.

Lemma perform_sync_processes_limit_witness :
  ∃ st' w',
    perform_sync (Demo.env (Demo.api false false [] Demo.collection)) 2
      (Demo.api false false [] Demo.collection) (Some 2) Demo.world0
    = (Return (imported st', skipped st', errors st'), w')
    ∧ (imported st' + skipped st' + length (errors st') = 2)%nat.
Proof.
  destruct (perform_sync_processes_limit
              (Demo.env (Demo.api false false [] Demo.collection)) 2
              (Demo.api false false [] Demo.collection) (Some 2) Demo.world0)
    as (_ & _ & _ & H).
  edestruct H as (st' & w3 & _ & Hsync & Hsum);
    [vm_compute; reflexivity..|].
  exists st', w3. split; [exact Hsync|exact Hsum].
Defined.

(** The example of the specification: one item already in the destination,
    its duplicate, and a new item without identifier. *)
Example perform_sync_spec_example :
  (perform_sync (Demo.env (Demo.api false false [] Demo.collection)) 5
     (Demo.api false false [] Demo.collection) None Demo.world0).1
  = Return (1%nat, 2%nat, []).
Proof. vm_compute. reflexivity. Qed.

(** With limit 1 exactly the first item of the collection is processed. *)
Example processed_items_limit_one :
  processed_items (Some 1) Demo.collection = take 1 Demo.collection.
Proof. reflexivity. Qed.

(** C4: in the history a run of the loop adds, no [put_object] call is for a
    key that was in the baseline at the start or that an earlier call of the
    run had stored, and the set the run ends with is the baseline plus the
    keys stored; an item whose key is in the set is counted as skipped and
    leaves the world as it was once its filename was resolved, without any
    fetch or upload. *)
Theorem sync_loop_never_reuploads (E : Env) (bucket prefix : pystr)
    (limit : option Z) (items : list Photo) (st : SyncState) (w : World) :
  ∃ st' w' new,
    sync_loop E bucket prefix limit 0 items st w = (Return st', w')
    ∧ trace w' = trace w ++ new
    ∧ existing st' = known_after (existing st) new
    ∧ no_reupload (existing st) new = true
    ∧ (∀ before bucket' key body content_type stored after,
         new = before ++ EvPutObject bucket' key body content_type stored
                           :: after →
         (key ∉ existing st)
         ∧ (∀ bucket'' body' content_type',
              EvPutObject bucket'' key body' content_type' true ∉ before))
    ∧ (∀ photo st0 w0 filename w1,
         get_photo_filename E photo w0 = (Return filename, w1) →
         item_key E prefix photo filename ∈ existing st0 →
         sync_item E bucket prefix photo st0 w0
         = (Return {| existing := existing st0; imported := imported st0;
                      skipped := S (skipped st0); errors := errors st0 |},
            w1)).
Proof.
  destruct (sync_loop_run E bucket prefix limit items 0%nat st w)
    as (st' & w' & new & Hrun & _ & Htrace & _ & Hno & Hknown).
  exists st', w', new. split_and!; [done..| |].
  - by apply no_reupload_spec.
  - intros photo st0 w0 filename w1 Hname Hin.
    destruct (sync_item_cases E bucket prefix photo st0 w0)
      as (filename' & w1' & Hname' & Hcases).
    rewrite Hname in Hname'. injection Hname' as <- <-. simpl in Hcases.
    by rewrite bool_decide_eq_true_2 in Hcases.
Qed.

Lemma sync_loop_never_reuploads_witness :
  ∃ w1,
    get_photo_filename (Demo.env (Demo.api false false [] []))
      (Demo.photo (Some (py "a1")) (Some (py "p1.jpg")) (Ok (DBytes [])))
      Demo.world0
    = (Return (py "p1.jpg"), w1)
    ∧ sync_item (Demo.env (Demo.api false false [] [])) (py "bucket")
        (py "photos/")
        (Demo.photo (Some (py "a1")) (Some (py "p1.jpg")) (Ok (DBytes [])))
        {| existing := {[ py "photos/a1-p1.jpg" ]}; imported := 0;
           skipped := 0; errors := [] |} Demo.world0
      = (Return {| existing := {[ py "photos/a1-p1.jpg" ]}; imported := 0;
                   skipped := 1; errors := [] |}, w1).
Proof.
  destruct (sync_loop_never_reuploads (Demo.env (Demo.api false false [] []))
              (py "bucket") (py "photos/") None [] 
              {| existing := ∅; imported := 0; skipped := 0; errors := [] |}
              Demo.world0)
    as (_ & _ & _ & _ & _ & _ & _ & _ & Hskip).
  exists Demo.world0. split; [reflexivity|].
  refine (Hskip
            (Demo.photo (Some (py "a1")) (Some (py "p1.jpg")) (Ok (DBytes [])))
            {| existing := {[ py "photos/a1-p1.jpg" ]}; imported := 0;
               skipped := 0; errors := [] |}
            Demo.world0 (py "p1.jpg") Demo.world0 eq_refl _).
  change (py "photos/a1-p1.jpg" ∈@{gset pystr} {[ py "photos/a1-p1.jpg" ]}).
  by apply elem_of_singleton_2.
Defined.

(** C5: when the fetch or the upload of an item raises, the loop body
    returns all the same: it appends ["Failed {filename}: {error}"] to the
    errors, with the resolved filename and the text of the error, leaves
    [imported], [skipped] and the key set as they were, and the loop goes on
    with the next item; the loop as a whole always returns. *)
Theorem sync_item_failure_recorded (E : Env) (bucket prefix : pystr)
    (photo : Photo) (st : SyncState) (w w1 w2 : World) (filename : pystr)
    (exc : exn) :
  get_photo_filename E photo w = (Return filename, w1) →
  item_key E prefix photo filename ∉ existing st →
  fetch_and_upload E bucket (item_key E prefix photo filename) photo w1
  = (Raise exc, w2) →
  let st' :=
    {| existing := existing st; imported := imported st;
       skipped := skipped st;
       errors := errors st
                 ++ [py "Failed " ++ filename ++ py ": " ++ str_exn exc] |} in
  sync_item E bucket prefix photo st w = (Return st', w2)
  ∧ (∀ limit index rest,
       limit_reached limit index = false →
       sync_loop E bucket prefix limit index (photo :: rest) st w
       = sync_loop E bucket prefix limit (S index) rest st' w2)
  ∧ (∀ limit index rest,
       ∃ st'' w'',
         sync_loop E bucket prefix limit index (photo :: rest) st w
         = (Return st'', w'')).
Proof.
  intros Hname Hkey Hraise st'.
  assert (sync_item E bucket prefix photo st w = (Return st', w2)) as Hitem.
  { destruct (sync_item_cases E bucket prefix photo st w)
      as (filename' & w1' & Hname' & Hcases).
    rewrite Hname in Hname'. injection Hname' as <- <-. simpl in Hcases.
    rewrite bool_decide_eq_false_2 in Hcases by done.
    by rewrite Hraise in Hcases. }
  split_and!; [done| |].
  - intros limit index rest Hlimit. simpl. rewrite Hlimit.
    unfold bind. by rewrite Hitem.
  - intros limit index rest.
    destruct (sync_loop_run E bucket prefix limit (photo :: rest) index st w)
      as (st'' & w'' & new & Hrun & _).
    by exists st'', w''.
Qed.

Lemma sync_item_failure_recorded_witness :
  ∃ w2,
    sync_item (Demo.env (Demo.api false false [] [])) (py "bucket")
      (py "photos/")
      (Demo.photo None (Some (py "p9.jpg")) (Fails (py "timed out")))
      {| existing := ∅; imported := 0; skipped := 0; errors := [] |}
      Demo.world0
    = (Return {| existing := ∅; imported := 0; skipped := 0;
                 errors := [py "Failed p9.jpg: timed out"] |}, w2).
Proof.
  eexists.
  apply (sync_item_failure_recorded (Demo.env (Demo.api false false [] []))
           (py "bucket") (py "photos/")
           (Demo.photo None (Some (py "p9.jpg")) (Fails (py "timed out")))
           {| existing := ∅; imported := 0; skipped := 0; errors := [] |}
           Demo.world0 Demo.world0 _ (py "p9.jpg")
           (Exception (py "timed out"))).
  - reflexivity.
  - apply not_elem_of_empty.
  - reflexivity.
Defined.

(** ** Auth Session Manager *)

(** The token check reads the environment only. *)
Lemma verify_token_world E authorization w :
  (verify_token E authorization w).2 = w.
Proof.
  unfold verify_token.
  repeat (match goal with |- context [if ?b then _ else _] => destruct b end;
          try done).
Qed.

Lemma verify_token_accepts E authorization w :
  (verify_token E authorization w).1 = Return () →
  verify_token E authorization w = (Return (), w).
Proof.
  intros Hok. pose proof (verify_token_world E authorization w) as Hw.
  destruct (verify_token E authorization w). simpl in *. congruence.
Qed.

(** C9: a resume call for a session id that is not in the table leaves the
    world as it was (table, files and history: no login, no sync), whatever
    the token; from an authenticated caller it fails with the not-found
    error, status 404. *)
Theorem sync_with_2fa_unknown_session (E : Env) (fuel : nat)
    (payload : TwoFactorRequest) (authorization : option pystr) (w : World) :
  pending_sessions w !! session_id payload = None →
  (sync_with_2fa E fuel payload authorization w).2 = w
  ∧ (∃ e, (sync_with_2fa E fuel payload authorization w).1 = Raise e)
  ∧ ((verify_token E authorization w).1 = Return () →
     sync_with_2fa E fuel payload authorization w
     = (Raise (HTTPException 404 (py "Session not found")), w)).
Proof.
  intros Habsent.
  assert (sync_with_2fa E fuel payload authorization w
          = (match (verify_token E authorization w).1 with
             | Return _ => Raise (HTTPException 404 (py "Session not found"))
             | Raise e => Raise e
             | OutOfFuel => OutOfFuel
             end, w)) as ->.
  { unfold sync_with_2fa, bind at 1.
    pose proof (verify_token_world E authorization w) as Hw.
    destruct (verify_token E authorization w) as [[[]|e|] w0];
      simpl in Hw; subst w0; simpl; [|done..].
    unfold bind, get_world. by rewrite Habsent. }
  split_and!; [done| |by intros ->].
  unfold verify_token.
  repeat (match goal with |- context [if ?b then _ else _] => destruct b end;
          simpl; eauto).
Qed.

Lemma sync_with_2fa_unknown_session_witness :
  sync_with_2fa (Demo.env (Demo.api true true (py "123456") [])) 3
    {| session_id := py "no-such-session"; code := py "123456" |}
    Demo.bearer Demo.world0
  = (Raise (HTTPException 404 (py "Session not found")), Demo.world0).
Proof.
  apply (sync_with_2fa_unknown_session
           (Demo.env (Demo.api true true (py "123456") [])) 3
           {| session_id := py "no-such-session"; code := py "123456" |}
           Demo.bearer Demo.world0).
  - reflexivity.
  - vm_compute. reflexivity.
Defined.

(** ** The credential cache directory *)

Lemma existsb_slash (p : pystr) : existsb (N.eqb slash) p = false ↔ slash ∉ p.
Proof.
  induction p as [|c p IH]; cbn [existsb].
  - split; [intros _; apply not_elem_of_nil|done].
  - rewrite orb_false_iff, IH, not_elem_of_cons, N.eqb_neq. naive_solver.
Qed.

(** A basename holds no separator. *)
Lemma basename_no_slash (p : pystr) : slash ∉ basename p.
Proof.
  induction p as [|c p IH]; simpl; [apply not_elem_of_nil|].
  destruct (existsb (N.eqb slash) p) eqn:Hp; [done|].
  apply existsb_slash in Hp.
  destruct (N.eqb_spec c slash) as [->|Hc]; [done|].
  apply not_elem_of_cons. split; [congruence|done].
Qed.

Lemma basename_under (dir name : pystr) :
  slash ∉ name → basename (dir ++ slash :: name) = name.
Proof.
  intros Hname. induction dir as [|c dir IH]; simpl.
  - apply existsb_slash in Hname. by rewrite Hname.
  - assert (existsb (N.eqb slash) (dir ++ slash :: name) = true) as ->; [|done].
    apply existsb_exists. exists slash. split; [|apply N.eqb_refl].
    apply in_or_app. right. by left.
Qed.

Lemma parent_dir_under (dir name : pystr) :
  slash ∉ name → parent_dir (dir ++ slash :: name) = dir.
Proof.
  intros Hname. unfold parent_dir. rewrite basename_under by done.
  rewrite length_app. simpl.
  replace (length dir + S (length name) - length name - 1)%nat
    with (length dir) by lia.
  by rewrite take_app_length.
Qed.

Lemma startswith_slash (name : pystr) :
  slash ∉ name → startswith name [slash] = false.
Proof.
  destruct name as [|c name]; [done|]. intros [Hc _]%not_elem_of_cons.
  cbn [startswith]. by rewrite (proj2 (N.eqb_neq _ _) Hc).
Qed.

Lemma endswith_slash_snoc (s : pystr) (c : pychar) :
  endswith (s ++ [c]) [slash] = (slash =? c)%N.
Proof.
  unfold endswith. rewrite reverse_snoc.
  change (reverse [slash]) with [slash]. cbn [startswith].
  destruct (reverse s); apply andb_true_r.
Qed.

(** Joining a directory that does not end in a separator with a name that
    holds none. *)
Lemma join_under (dir name : pystr) :
  truthy dir = true → endswith dir [slash] = false → slash ∉ name →
  join dir name = dir ++ slash :: name.
Proof.
  intros Hdir Hend Hname. unfold join.
  by rewrite startswith_slash, Hdir, Hend.
Qed.

(** The directory [mkdtemp] makes for a candidate name without separator. *)
Lemma join_candidate (tmp prefix name : pystr) :
  truthy prefix = true → slash ∉ prefix → slash ∉ name →
  truthy (join tmp (prefix ++ name)) = true
  ∧ endswith (join tmp (prefix ++ name)) [slash] = false.
Proof.
  intros Hprefix Hp Hname.
  assert (slash ∉ prefix ++ name) as Hall.
  { rewrite elem_of_app. tauto. }
  assert (∃ s c, prefix ++ name = s ++ [c] ∧ c ≠ slash) as (s & c & Hs & Hc).
  { destruct (prefix ++ name) as [|c0 rest] eqn:Heq using rev_ind.
    - by destruct prefix.
    - exists rest, c0. split; [done|]. intros ->. apply Hall.
      apply elem_of_app. right. by left. }
  unfold join. rewrite startswith_slash by done. rewrite Hs.
  assert ((slash =? c)%N = false) as Hne by (apply N.eqb_neq; congruence).
  destruct (negb (truthy tmp) || endswith tmp [slash]).
  - rewrite (assoc_L (++)), endswith_slash_snoc. split; [|done].
    by destruct (tmp ++ s).
  - rewrite !(assoc_L (++)), endswith_slash_snoc. split; [|done].
    by destruct ((tmp ++ [slash]) ++ s).
Qed.

Lemma mkdtemp_run E prefix w :
  match mkdtemp E prefix w with
  | (Return dir, w') =>
      (∃ name, name ∈ candidate_names E (trace w)
               ∧ dir = join (gettempdir E) (prefix ++ name))
      ∧ (dir ∉ dom (fs w))
      ∧ w' = {| pending_sessions := pending_sessions w;
                fs := <[dir := ∅]> (fs w);
                trace := trace w ++ [EvMkdtemp dir] |}
  | (Raise _, w') => w' = w
  | (OutOfFuel, _) => False
  end.
Proof.
  unfold mkdtemp, bind, get_world. simpl.
  destruct (find _ _) as [dir|] eqn:Hfind; simpl; [|done].
  apply find_some in Hfind as [Hin Hfresh].
  apply list_elem_of_In, list_elem_of_fmap in Hin as (name & -> & Hname).
  split_and!; [by exists name| |done].
  unfold path_exists in Hfresh.
  apply negb_true_iff, orb_false_iff in Hfresh as [Hdir _].
  by apply bool_decide_eq_false in Hdir.
Qed.

(** C10, as stated, fails: for a payload whose [file_name] ends in a
    separator the basename is empty, the path to open is the session
    directory itself, the open fails, and the directory is left without any
    file. *)
Lemma create_session_dir_writes_nothing_for_directory_name :
  ∃ w',
    create_session_dir (Demo.env (Demo.api false false [] []))
      (Some {| file_name := py "cookies/"; data := py "session" |})
      Demo.world0
    = (Raise (Exception (py "[Errno 21] Is a directory")), w')
    ∧ fs w' = <[py "/tmp/icloud-session-k3x" := ∅]> (fs Demo.world0).
Proof. eexists. split; vm_compute; reflexivity. Qed.

(** The same happens for a [file_name] that ends in a parent-directory
    segment: its basename is that segment. *)
Example create_session_dir_parent_segment :
  ∃ w',
    create_session_dir (Demo.env (Demo.api false false [] []))
      (Some {| file_name := py "cookies/.."; data := py "session" |})
      Demo.world0
    = (Raise (Exception (py "[Errno 21] Is a directory")), w')
    ∧ fs w' = <[py "/tmp/icloud-session-k3x" := ∅]> (fs Demo.world0).
Proof. eexists. split; vm_compute; reflexivity. Qed.

(** C10, amended: the name of the file is the basename of [file_name] and
    holds no separator; when the call returns, the file system differs from
    the one before by one fresh directory that holds exactly one file, of
    that name and with the payload's data; when it raises (the basename is
    empty, [.] or [..], or the operating system refuses the name), no file
    has been written anywhere: at most the fresh, empty directory has been
    added. The candidate names of [mkdtemp] are assumed to hold no
    separator. *)
Theorem create_session_dir_stays_inside (E : Env) (s : SessionPayload)
    (w : World) :
  Forall (λ name, slash ∉ name) (candidate_names E (trace w)) →
  let name := basename (file_name s) in
  (slash ∉ name)
  ∧ match create_session_dir E (Some s) w with
    | (Return dir, w') =>
        (dir ∉ dom (fs w))
        ∧ fs w' = <[dir := {[name := data s]}]> (fs w)
        ∧ names_directory name = false
    | (Raise _, w') =>
        fs w' = fs w
        ∨ ∃ dir, (dir ∉ dom (fs w)) ∧ fs w' = <[dir := ∅]> (fs w)
    | (OutOfFuel, _) => False
    end.
Proof.
  intros Hnames name. pose proof (basename_no_slash (file_name s)) as Hname.
  split; [done|].
  unfold create_session_dir, bind at 1.
  pose proof (mkdtemp_run E (py "icloud-session-") w) as Hmk.
  destruct (mkdtemp E (py "icloud-session-") w) as [[dir|e|] w1];
    [|left; by subst|done].
  destruct Hmk as ((cand & Hcand & Hdir) & Hfresh & ->).
  assert (slash ∉ cand) as Hc.
  { eapply Forall_forall in Hnames; [exact Hnames|done]. }
  destruct (join_candidate (gettempdir E) (py "icloud-session-") cand)
    as (Htruthy & Hend); [done|by apply existsb_slash|done|].
  rewrite <-Hdir in Htruthy, Hend.
  fold name. rewrite (join_under dir name) by done.
  unfold bind, write_text.
  case_bool_decide; simpl; [right; by exists dir|].
  rewrite parent_dir_under, basename_under by done.
  unfold bind, get_world. simpl. rewrite lookup_insert_eq.
  destruct (names_directory name) eqn:Hdirname; simpl;
    [right; by exists dir|].
  case_bool_decide; simpl; [right; by exists dir|].
  destruct (os_error E _); simpl; [right; by exists dir|].
  split_and!; [done| |done].
  by rewrite insert_insert_eq, insert_empty.
Qed.

Lemma create_session_dir_stays_inside_witness :
  ∃ w',
    create_session_dir (Demo.env (Demo.api false false [] []))
      (Some {| file_name := py "../../etc/cron.d/job"; data := py "x" |})
      Demo.world0
    = (Return (py "/tmp/icloud-session-k3x"), w')
    ∧ fs w' = <[py "/tmp/icloud-session-k3x" := {[ py "job" := py "x" ]}]>
                (fs Demo.world0).
Proof.
  destruct (create_session_dir_stays_inside
              (Demo.env (Demo.api false false [] []))
              {| file_name := py "../../etc/cron.d/job"; data := py "x" |}
              Demo.world0) as [_ H].
  - repeat constructor; by apply existsb_slash.
  - destruct (create_session_dir _ _ _) as [[dir|e|] w'] eqn:Hrun;
      vm_compute in Hrun; [|discriminate Hrun..].
    injection Hrun as <- _. destruct H as (_ & Hfs & _).
    exists w'. split; [reflexivity|exact Hfs].
Defined.

(** ** BeginLogin *)

Lemma sync_runs_app a b : sync_runs (a ++ b) = sync_runs a ++ sync_runs b.
Proof. apply omap_app. Qed.

Lemma issued_app a b : issued (a ++ b) = issued a ++ issued b.
Proof. apply omap_app. Qed.

Lemma logins_app a b : logins (a ++ b) = logins a ++ logins b.
Proof. apply omap_app. Qed.

Lemma sync_runs_items q :
  Forall (λ ev, item_event ev = true) q → sync_runs q = [].
Proof. induction 1 as [|[] q Hev _ IH]; simpl; done. Qed.

Lemma logins_items q :
  Forall (λ ev, item_event ev = true) q → logins q = [].
Proof. induction 1 as [|[] q Hev _ IH]; simpl; done. Qed.

Lemma write_text_emits E path text :
  emits (λ ev, item_event ev = true) (write_text E path text).
Proof. unfold write_text. run. Qed.

Lemma create_session_dir_emits E session :
  emits (λ ev, item_event ev = true) (create_session_dir E session).
Proof.
  unfold create_session_dir. run;
    first [apply mkdtemp_emits | apply write_text_emits].
Qed.

(** A login adds itself to the history and changes nothing else. *)
Lemma login_run E apple_id app_password dir w :
  (login E apple_id app_password dir w).2
  = {| pending_sessions := pending_sessions w; fs := fs w;
       trace := trace w ++ [EvLogin apple_id app_password dir] |}.
Proof.
  unfold login, bind, get_world, log, lift. simpl.
  by destruct (PyiCloudService E _ _ _ _).
Qed.



(** ** Events of the engine and of the handlers *)

Lemma get_s3_client_emits E P : emits P (get_s3_client E).
Proof. unfold get_s3_client. run. Qed.

Lemma verify_token_emits E P authorization :
  emits P (verify_token E authorization).
Proof. unfold verify_token. run. Qed.

Lemma extract_session_payload_emits P dir :
  emits P (extract_session_payload dir).
Proof. unfold extract_session_payload. run. Qed.

Lemma list_existing_keys_loop_emits E bucket prefix fuel :
  ∀ keys continuation,
    emits (λ ev, engine_event ev = true)
      (list_existing_keys_loop E fuel bucket prefix keys continuation).
Proof.
  induction fuel as [|fuel IH]; intros keys continuation; simpl.
  - intros w. split; [done|]. exists []. by rewrite app_nil_r.
  - run. apply IH.
Qed.

Lemma sync_loop_emits E bucket prefix limit index photos st :
  emits (λ ev, engine_event ev = true)
    (sync_loop E bucket prefix limit index photos st).
Proof.
  intros w.
  destruct (sync_loop_run E bucket prefix limit photos index st w)
    as (st' & w' & new & -> & Hp & Ht & Hnew & _).
  simpl. eauto.
Qed.

Lemma bind_log {A} ev (k : unit → M A) w :
  bind (log ev) k w
  = k () {| pending_sessions := pending_sessions w; fs := fs w;
            trace := trace w ++ [ev] |}.
Proof. reflexivity. Qed.

(** A run of the engine records its entry, with its limit, and then only
    events of the engine; it leaves the session table alone. *)
Lemma perform_sync_run E fuel api limit w :
  pending_sessions (perform_sync E fuel api limit w).2 = pending_sessions w
  ∧ ∃ new,
      trace (perform_sync E fuel api limit w).2
      = trace w ++ EvPerformSync limit :: new
      ∧ Forall (λ ev, engine_event ev = true) new.
Proof.
  unfold perform_sync. rewrite bind_log. cbv beta.
  match goal with
  | |- context [bind ?m ?k ?w0] =>
      assert (emits (λ ev, engine_event ev = true) (bind m k)) as Hrest
  end.
  { run; first [apply get_s3_client_emits
               |apply list_existing_keys_loop_emits
               |apply sync_loop_emits]. }
  match goal with
  | |- context [bind ?m ?k ?w0] =>
      destruct (Hrest w0) as (Hp & new & Ht & Hnew)
  end.
  simpl in *. split; [done|]. exists new.
  by rewrite Ht, <-(assoc_L (++)).
Qed.

Lemma sync_runs_engine q :
  Forall (λ ev, engine_event ev = true) q → sync_runs q = [].
Proof. induction 1 as [|[] q Hev _ IH]; simpl; done. Qed.

Lemma logins_engine q :
  Forall (λ ev, engine_event ev = true) q → logins q = [].
Proof. induction 1 as [|[] q Hev _ IH]; simpl; done. Qed.

(** ** ResumeLogin *)

(** What a resume call does once the session is found and the login has
    been made again: the code is checked exactly when [requires_2fa] is set,
    then the engine runs without limit, the cache payload is read, and the
    entry is removed. *)
Lemma sync_with_2fa_found E fuel payload authorization w pending api w1 :
  (verify_token E authorization w).1 = Return () →
  pending_sessions w !! session_id payload = Some pending →
  login E (apple_id pending) (app_password pending) (session_dir pending) w
  = (Return api, w1) →
  sync_with_2fa E fuel payload authorization w
  = if requires_2fa api then
      match validate_2fa_code api (code payload) with
      | Ok true =>
          resume_tail E fuel (session_id payload) (session_dir pending) api
            (resumed_world w pending [code payload])
      | Ok false =>
          (Raise (HTTPException 401 (py "Invalid 2FA code")),
           resumed_world w pending [code payload])
      | Fails text =>
          (Raise (Exception text), resumed_world w pending [code payload])
      end
    else
      resume_tail E fuel (session_id payload) (session_dir pending) api
        (resumed_world w pending []).
Proof.
  intros Hauth Hfound Hlogin.
  pose proof (login_run E (apple_id pending) (app_password pending)
                (session_dir pending) w) as Hw1.
  rewrite Hlogin in Hw1. simpl in Hw1. subst w1.
  unfold sync_with_2fa, bind at 1.
  rewrite (verify_token_accepts E authorization w Hauth).
  unfold bind at 1, get_world at 1. cbv beta iota. rewrite Hfound.
  unfold bind at 1. rewrite Hlogin.
  destruct (requires_2fa api); [|reflexivity].
  unfold resume_tail, resumed_world, bind, log, lift. simpl.
  destruct (validate_2fa_code api (code payload)) as [[|]|text]; simpl;
    by rewrite <-(assoc_L (++)).
Qed.

(** After the code has been accepted, or when none was asked for: the
    engine runs once, without limit, and the entry is removed exactly when
    the call returns. *)
Lemma resume_tail_run E fuel (sid dir : pystr) api w :
  let r := resume_tail E fuel sid dir api w in
  sync_runs (trace r.2) = sync_runs (trace w) ++ [None]
  ∧ logins (trace r.2) = logins (trace w)
  ∧ match r.1 with
    | Return _ => pending_sessions r.2 = delete sid (pending_sessions w)
    | _ => pending_sessions r.2 = pending_sessions w
    end.
Proof.
  intros r.
  destruct (perform_sync_run E fuel api None w) as (Hp & new & Ht & Hnew).
  assert (sync_runs (trace (perform_sync E fuel api None w).2)
          = sync_runs (trace w) ++ [None]) as Hruns.
  { rewrite Ht, sync_runs_app. simpl. by rewrite (sync_runs_engine new). }
  assert (logins (trace (perform_sync E fuel api None w).2)
          = logins (trace w)) as Hlogins.
  { rewrite Ht, logins_app. simpl.
    by rewrite (logins_engine new), app_nil_r. }
  subst r. unfold resume_tail, bind, get_world, set_pending, ret.
  destruct (perform_sync E fuel api None w) as [[[[i s] errs]|e|] w3];
    simpl in *; [|done..].
  destruct (extract_session_payload_emits (λ _, False) dir w3)
    as (Hp4 & new4 & Ht4 & Hnew4).
  assert (new4 = []) as -> by (destruct new4; [done|by inversion Hnew4]).
  rewrite app_nil_r in Ht4.
  destruct (extract_session_payload dir w3) as [[sp|e|] w4]; simpl in *.
  - by rewrite Ht4, Hp4, Hp.
  - by rewrite Ht4, Hp4.
  - by rewrite Ht4, Hp4.
Qed.

(** The part of C1 the code keeps: when the login made again reports
    [requires_2fa], the code is validated; an invalid code is the error 401
    and leaves the table as it was, with no run of the engine; a valid code
    leads to exactly one run of the engine, without limit, and the entry is
    removed when the call returns. *)
Lemma sync_with_2fa_validates E fuel payload authorization w pending api w1 :
  (verify_token E authorization w).1 = Return () →
  pending_sessions w !! session_id payload = Some pending →
  login E (apple_id pending) (app_password pending) (session_dir pending) w
  = (Return api, w1) →
  requires_2fa api = true →
  let r := sync_with_2fa E fuel payload authorization w in
  match validate_2fa_code api (code payload) with
  | Ok false =>
      r = (Raise (HTTPException 401 (py "Invalid 2FA code")),
           resumed_world w pending [code payload])
  | Ok true =>
      sync_runs (trace r.2) = sync_runs (trace w) ++ [None]
      ∧ match r.1 with
        | Return _ =>
            pending_sessions r.2
            = delete (session_id payload) (pending_sessions w)
        | _ => pending_sessions r.2 = pending_sessions w
        end
  | Fails text =>
      r = (Raise (Exception text), resumed_world w pending [code payload])
  end.
Proof.
  intros Hauth Hfound Hlogin H2fa r. subst r.
  rewrite (sync_with_2fa_found E fuel payload authorization w pending api w1)
    by done.
  rewrite H2fa.
  destruct (validate_2fa_code api (code payload)) as [[|]|text]; [|done..].
  destruct (resume_tail_run E fuel (session_id payload)
              (session_dir pending) api
              (resumed_world w pending [code payload]))
    as (Hruns & _ & Hpending).
  split; [|exact Hpending].
  rewrite Hruns. unfold resumed_world. simpl.
  rewrite sync_runs_app. simpl. by rewrite app_nil_r.
Qed.

(** C1 fails on the code for a login that reports [requires_2sa] without
    [requires_2fa]: the first request parks the session, as for any pending
    verification, but the resume call tests [requires_2fa] only, so the code
    000000, which the account rejects, is never submitted; the engine runs
    and the session is removed. *)
Theorem sync_with_2fa_skips_validation_for_2sa :
  let E := Demo.env Demo.two_step in
  let parked := sync_photos E 3 Demo.request Demo.bearer Demo.world0 in
  let resumed :=
    sync_with_2fa E 3 {| session_id := py "aaa"; code := py "000000" |}
      Demo.bearer parked.2 in
  parked.1 = Return (Needs2FA (py "aaa"))
  ∧ is_Some (pending_sessions parked.2 !! py "aaa")
  ∧ validate_2fa_code Demo.two_step (py "000000") = Ok false
  ∧ resumed.1 = Return (SyncOk 1 2 [] None)
  ∧ validations (trace resumed.2) = []
  ∧ sync_runs (trace resumed.2) = [None]
  ∧ pending_sessions resumed.2 !! py "aaa" = None.
Proof.
  split_and!; try (vm_compute; reflexivity).
  vm_compute. eexists. reflexivity.
Qed.

(** With [requires_2fa] set the same wrong code is refused and the session
    stays. *)
Example sync_with_2fa_refuses_wrong_code :
  let E := Demo.env (Demo.api true true (py "123456") Demo.collection) in
  let parked := sync_photos E 3 Demo.request Demo.bearer Demo.world0 in
  let resumed :=
    sync_with_2fa E 3 {| session_id := py "aaa"; code := py "000000" |}
      Demo.bearer parked.2 in
  resumed.1 = Raise (HTTPException 401 (py "Invalid 2FA code"))
  ∧ pending_sessions resumed.2 = pending_sessions parked.2
  ∧ sync_runs (trace resumed.2) = [].
Proof. split_and!; vm_compute; reflexivity. Qed.

(** ** The session table only holds issued identifiers *)

Lemma keeps_of_emits {A} P (m : M A) : emits P m → keeps_table_issued m.
Proof.
  intros Hm w Hw sid Hsid. destruct (Hm w) as (Hp & new & Ht & _).
  rewrite Hp in Hsid. apply Hw in Hsid. rewrite Ht, issued_app.
  apply elem_of_app. by left.
Qed.

Lemma keeps_bind {A B} (m : M A) (k : A → M B) :
  keeps_table_issued m → (∀ a, keeps_table_issued (k a)) →
  keeps_table_issued (bind m k).
Proof.
  intros Hm Hk w Hw. unfold bind. specialize (Hm w Hw).
  destruct (m w) as [[a|e|] w1]; simpl in *; [by apply Hk|done..].
Qed.

Lemma login_emits E apple_id app_password dir :
  emits (λ _, True) (login E apple_id app_password dir).
Proof. unfold login. run. Qed.

Lemma perform_sync_emits E fuel api limit :
  emits (λ _, True) (perform_sync E fuel api limit).
Proof.
  intros w. destruct (perform_sync_run E fuel api limit w)
    as (Hp & new & Ht & _).
  split; [done|]. exists (EvPerformSync limit :: new). split; [done|].
  by apply Forall_forall.
Qed.

Lemma table_issued_empty w : pending_sessions w = ∅ → table_issued w.
Proof. intros Hw sid [x Hx]. by rewrite Hw, lookup_empty in Hx. Qed.

(** Both handlers keep the table within the issued identifiers, so it is
    within them in every world reached from an empty table. *)
Lemma sync_photos_keeps_table_issued E fuel request authorization :
  keeps_table_issued (sync_photos E fuel request authorization).
Proof.
  unfold sync_photos.
  apply keeps_bind; [apply (keeps_of_emits _ _ (verify_token_emits E (λ _, True) _))|].
  intros _. apply keeps_bind;
    [apply (keeps_of_emits _ _ (create_session_dir_emits E _))|].
  intros dir. apply keeps_bind; [apply (keeps_of_emits _ _ (login_emits E _ _ _))|].
  intros api. destruct (requires_2fa api || requires_2sa api).
  - intros w Hw sid.
    unfold bind, uuid4, time, get_world, log, set_pending, ret. simpl.
    rewrite <-!(assoc_L (++)), issued_app. simpl.
    destruct (decide (sid = uuid4_hex E (trace w))) as [->|Hne].
    + intros _. set_solver.
    + rewrite lookup_insert_ne by done. intros Hsid%Hw. set_solver.
  - apply keeps_bind; [apply (keeps_of_emits _ _ (perform_sync_emits E _ _ _))|].
    intros [[i sk] errs]. apply (keeps_of_emits (λ _, True)). run.
    apply extract_session_payload_emits.
Qed.

Lemma sync_with_2fa_keeps_table_issued E fuel payload authorization :
  keeps_table_issued (sync_with_2fa E fuel payload authorization).
Proof.
  unfold sync_with_2fa.
  apply keeps_bind; [apply (keeps_of_emits _ _ (verify_token_emits E (λ _, True) _))|].
  intros _. apply keeps_bind; [apply (keeps_of_emits (λ _, True)); run|].
  intros w0. destruct (pending_sessions w0 !! session_id payload) as [pending|];
    [|apply (keeps_of_emits (λ _, True)); run].
  apply keeps_bind; [apply (keeps_of_emits _ _ (login_emits E _ _ _))|].
  intros api. apply keeps_bind; [apply (keeps_of_emits (λ _, True)); run|].
  intros _.
  apply keeps_bind; [apply (keeps_of_emits _ _ (perform_sync_emits E _ _ _))|].
  intros [[i sk] errs].
  apply keeps_bind;
    [apply (keeps_of_emits _ _ (extract_session_payload_emits (λ _, True) _))|].
  intros sp w Hw sid. unfold bind, get_world, set_pending, ret. simpl.
  destruct (decide (sid = session_id payload)) as [->|Hne].
  - rewrite lookup_delete_eq. by intros [x Hx].
  - rewrite lookup_delete_ne by done. apply Hw.
Qed.

(** * Further properties of the worker *)

(** ** Token check and prefix *)

Lemma startswith_spec (s p : pystr) :
  startswith s p = true ↔ ∃ rest, s = p ++ rest.
Proof.
  revert s. induction p as [|a p IH]; intros s.
  - destruct s; simpl; split; eauto.
  - destruct s as [|b s]; cbn [startswith].
    + split; [done|]. by intros [rest Hrest].
    + rewrite andb_true_iff, N.eqb_eq, IH. split.
      * intros [-> [rest ->]]. by exists rest.
      * intros [rest Hrest]. injection Hrest as -> ->. eauto.
Qed.

(** The token check on a header of the expected form. *)
Lemma verify_token_bearer E token w :
  verify_token E (Some (py "Bearer " ++ token)) w
  = (match environ E !! py "WORKER_JWT_SECRET" with
     | Some (c :: secret) =>
         if jwt_decode E token (c :: secret) then Return ()
         else Raise (HTTPException 401 (py "Invalid token"))
     | _ => Raise (HTTPException 500 (py "WORKER_JWT_SECRET not configured"))
     end, w).
Proof.
  unfold verify_token.
  assert (truthy_opt (Some (py "Bearer " ++ token)) = true) as ->
    by reflexivity.
  assert (startswith (default [] (Some (py "Bearer " ++ token)))
            (py "Bearer ") = true) as ->.
  { apply startswith_spec. by exists token. }
  cbn [negb orb].
  change (drop 7 (default [] (Some (py "Bearer " ++ token)))) with token.
  destruct (environ E !! py "WORKER_JWT_SECRET") as [[|c secret]|];
    cbn [truthy_opt truthy negb]; try reflexivity.
  change (default [] (Some (c :: secret))) with (c :: secret).
  by destruct (jwt_decode E token (c :: secret)).
Qed.

(** X1: the token check never changes the world; it lets a request through
    exactly when the header is ["Bearer "] followed by a token, the secret
    is configured and not empty, and [jwt.decode] accepts the token under
    that secret; a header that does not start with ["Bearer "] is refused
    with 401 before the configuration is looked at. *)
Theorem verify_token_accepts_exactly (E : Env) (authorization : option pystr)
    (w : World) :
  (verify_token E authorization w).2 = w
  ∧ ((verify_token E authorization w).1 = Return ()
     ↔ ∃ token secret,
         authorization = Some (py "Bearer " ++ token)
         ∧ environ E !! py "WORKER_JWT_SECRET" = Some secret
         ∧ secret ≠ []
         ∧ jwt_decode E token secret = true)
  ∧ (startswith (default [] authorization) (py "Bearer ") = false →
     (verify_token E authorization w).1
     = Raise (HTTPException 401 (py "Missing bearer token"))).
Proof.
  assert (startswith (default [] authorization) (py "Bearer ") = false →
          (verify_token E authorization w).1
          = Raise (HTTPException 401 (py "Missing bearer token"))) as Hrefuse.
  { intros Hstart. unfold verify_token. by rewrite Hstart, orb_true_r. }
  split_and!; [apply verify_token_world| |done].
  destruct (startswith (default [] authorization) (py "Bearer ")) eqn:Hstart.
  - apply startswith_spec in Hstart as [token Htoken].
    destruct authorization as [header|]; [|discriminate Htoken].
    change (header = py "Bearer " ++ token) in Htoken. subst header.
    rewrite verify_token_bearer. cbn [fst].
    destruct (environ E !! py "WORKER_JWT_SECRET") as [[|c secret]|]
      eqn:Hsecret.
    + split; [done|]. intros (t & s & _ & Hs & Hne & _). congruence.
    + destruct (jwt_decode E token (c :: secret)) eqn:Hjwt.
      * split; [|done]. intros _. by exists token, (c :: secret).
      * split; [done|]. intros (t & s & Ht & Hs & _ & Hdec).
        injection Ht as <-. injection Hs as <-. congruence.
    + split; [done|]. by intros (t & s & _ & Hs & _).
  - rewrite Hrefuse by done. split; [done|].
    intros (t & s & -> & _).
    change (startswith (py "Bearer " ++ t) (py "Bearer ") = false) in Hstart.
    assert (startswith (py "Bearer " ++ t) (py "Bearer ") = true) as Heq.
    { apply startswith_spec. by exists t. }
    congruence.
Qed.



(** ** Identifier and filename of an item *)

Lemma first_truthy_spec (values : list (option pystr)) :
  match first_truthy values with
  | Some value =>
      value ≠ []
      ∧ ∃ before after,
          values = before ++ Some value :: after
          ∧ Forall (λ o, truthy_opt o = false) before
  | None => Forall (λ o, truthy_opt o = false) values
  end.
Proof.
  unfold first_truthy. induction values as [|o values IH]; [by constructor|].
  assert (find truthy (omap id (o :: values))
          = match o with
            | Some (c :: s) => Some (c :: s)
            | _ => find truthy (omap id values)
            end) as -> by (by destruct o as [[|c s]|]).
  destruct o as [[|c s]|].
  - destruct (find truthy (omap id values)) as [value|].
    + destruct IH as (Hne & before & after & -> & Hbefore).
      split; [done|]. exists (Some [] :: before), after.
      split; [done|]. by constructor.
    + by constructor.
  - split; [done|]. exists [], values. by split.
  - destruct (find truthy (omap id values)) as [value|].
    + destruct IH as (Hne & before & after & -> & Hbefore).
      split; [done|]. exists (None :: before), after.
      split; [done|]. by constructor.
    + by constructor.
Qed.

(** X4: the identifier of an item is the first of [id], [asset_id],
    [record_name], [recordName] that is present and not empty, every
    attribute before it being absent or empty; it is never the empty string,
    and there is none exactly when all four are absent or empty. *)
Theorem get_photo_identifier_first_non_empty (photo : Photo) :
  let candidates :=
    [ph_id photo; ph_asset_id photo; ph_record_name photo;
     ph_recordName photo] in
  match get_photo_identifier photo with
  | Some value =>
      value ≠ []
      ∧ ∃ before after,
          candidates = before ++ Some value :: after
          ∧ Forall (λ o, truthy_opt o = false) before
  | None => Forall (λ o, truthy_opt o = false) candidates
  end.
Proof. apply first_truthy_spec. Qed.

Lemma jpg_name_non_empty (stem : pystr) : stem ++ py ".jpg" ≠ [].
Proof. by destruct stem. Qed.

(** X5: resolving the filename of an item always returns a filename that is
    not empty; the world is left as it was unless the item has neither a
    filename attribute nor an identifier, the only case in which a random
    name is drawn, the filename then being that name followed by [.jpg]. *)
Theorem get_photo_filename_never_empty (E : Env) (photo : Photo) (w : World) :
  ∃ filename w',
    get_photo_filename E photo w = (Return filename, w')
    ∧ filename ≠ []
    ∧ (w' = w
       ∨ (get_photo_identifier photo = None
          ∧ Forall (λ o, truthy_opt o = false)
              [ph_filename photo; ph_original_filename photo;
               ph_file_name photo; ph_name photo]
          ∧ filename = uuid4_hex E (trace w) ++ py ".jpg"
          ∧ w' = {| pending_sessions := pending_sessions w; fs := fs w;
                    trace := trace w ++ [EvUuid4 (uuid4_hex E (trace w))] |})).
Proof.
  unfold get_photo_filename.
  pose proof (first_truthy_spec
                [ph_filename photo; ph_original_filename photo;
                 ph_file_name photo; ph_name photo]) as Hname.
  destruct (first_truthy _) as [value|].
  { exists value, w. destruct Hname as [Hne _]. by split_and!; [|..|left]. }
  pose proof (first_truthy_spec
                [ph_id photo; ph_asset_id photo; ph_record_name photo;
                 ph_recordName photo]) as Hid.
  fold (get_photo_identifier photo) in Hid.
  destruct (get_photo_identifier photo) as [identifier|].
  { exists (identifier ++ py ".jpg"), w.
    split_and!; [done|apply jpg_name_non_empty|by left]. }
  eexists _, _. split_and!; [reflexivity|apply jpg_name_non_empty|].
  right. by split_and!.
Qed.

(** ** Item Fetcher *)

(** X6: when the download of an item fails, or hands its bytes over in
    memory (as bytes, as a response with content, as a stream, or in a
    dictionary under [data]), fetching the item gives that failure or those
    bytes after the single download call: no directory is made and no second
    download is tried. *)
Theorem download_photo_bytes_direct (E : Env) (photo : Photo) (w : World)
    (r : outcome bytes) :
  direct_result photo = Some r →
  download_photo_bytes E photo w = (r, logged w (EvDownload photo)).
Proof.
  unfold direct_result, download_photo_bytes. rewrite bind_log. cbv beta.
  unfold bind at 1. fold (logged w (EvDownload photo)).
  destruct (download photo) as [d|text]; simpl.
  - destruct d as [c|c|c|[c|]|]; simpl; intros [= <-]; reflexivity.
  - by intros [= <-].
Qed.

Lemma download_photo_bytes_direct_witness :
  download_photo_bytes (Demo.env (Demo.api false false [] []))
    (Demo.photo None (Some (py "p2.png")) (Ok (DStream Demo.jpeg)))
    Demo.world0
  = (Return Demo.jpeg,
     logged Demo.world0
       (EvDownload
          (Demo.photo None (Some (py "p2.png")) (Ok (DStream Demo.jpeg))))).
Proof.
  apply (download_photo_bytes_direct (Demo.env (Demo.api false false [] []))
           (Demo.photo None (Some (py "p2.png")) (Ok (DStream Demo.jpeg)))
           Demo.world0 (Return Demo.jpeg)).
  reflexivity.
Defined.




(** ** Failures before the first item *)

Lemma list_existing_keys_loop_run E bucket prefix fuel :
  ∀ keys continuation w,
    let r := list_existing_keys_loop E fuel bucket prefix keys continuation w in
    pending_sessions r.2 = pending_sessions w
    ∧ fs r.2 = fs w
    ∧ ∃ new, trace r.2 = trace w ++ new
             ∧ Forall (λ ev, is_listing ev = true) new.
Proof.
  induction fuel as [|fuel IH]; intros keys continuation w; simpl.
  { split_and!; [done..|]. exists []. by rewrite app_nil_r. }
  unfold bind, log, lift, ret, raise.
  set (token := if truthy_opt continuation then continuation else None).
  set (w0 := {| pending_sessions := pending_sessions w; fs := fs w;
                trace := trace w ++ [EvListObjects bucket prefix token] |}).
  destruct (list_objects_v2 E bucket prefix token) as [response|text]; simpl.
  - destruct (IsTruncated response).
    + destruct (IH (add_page_keys keys response)
                  (NextContinuationToken response) w0)
        as (Hp & Hfs & new & Ht & Hnew).
      split_and!; [done..|]. eexists. rewrite Ht. simpl.
      rewrite <-(assoc_L (++)). split; [done|]. by constructor.
    + simpl. split_and!; [done..|]. eexists. split; [done|].
      by repeat constructor.
  - split_and!; [done..|]. eexists. split; [done|]. by repeat constructor.
Qed.

(** X8: without a bucket name in [PHOTO_BUCKET] (absent or empty) a sync
    run fails at once with the error 500: the object store is not listed
    and no item is looked at. *)
Theorem perform_sync_needs_bucket (E : Env) (fuel : nat) (api : Api)
    (limit : option Z) (w : World) :
  truthy_opt (environ E !! py "PHOTO_BUCKET") = false →
  perform_sync E fuel api limit w
  = (Raise (HTTPException 500 (py "PHOTO_BUCKET not configured")),
     logged w (EvPerformSync limit)).
Proof.
  intros Hbucket. unfold perform_sync. rewrite bind_log. cbv beta.
  unfold bind, get_s3_client. by rewrite Hbucket.
Qed.

Lemma perform_sync_needs_bucket_witness :
  perform_sync (with_environ (Demo.env Demo.two_step) ∅) 3 Demo.two_step
    None Demo.world0
  = (Raise (HTTPException 500 (py "PHOTO_BUCKET not configured")),
     logged Demo.world0 (EvPerformSync None)).
Proof.
  apply (perform_sync_needs_bucket (with_environ (Demo.env Demo.two_step) ∅)
           3 Demo.two_step None Demo.world0).
  reflexivity.
Defined.

(** X9: when the listing of the destination raises, the sync run raises the
    same error: the history gains only the entry of the run and calls of
    [list_objects_v2], so no item is fetched or uploaded, and the file
    system and the session table are as before. *)
Theorem perform_sync_listing_failure (E : Env) (fuel : nat) (api : Api)
    (limit : option Z) (w w2 : World) (bucket : pystr) (e : exn) :
  environ E !! py "PHOTO_BUCKET" = Some bucket → bucket ≠ [] →
  list_existing_keys E fuel bucket (ensure_photo_prefix E)
    (logged w (EvPerformSync limit))
  = (Raise e, w2) →
  perform_sync E fuel api limit w = (Raise e, w2)
  ∧ fs w2 = fs w
  ∧ pending_sessions w2 = pending_sessions w
  ∧ ∃ new, trace w2 = trace w ++ EvPerformSync limit :: new
           ∧ Forall (λ ev, is_listing ev = true) new.
Proof.
  intros Hbucket Hne Hlist.
  destruct (list_existing_keys_loop_run E bucket (ensure_photo_prefix E) fuel
              ∅ None (logged w (EvPerformSync limit)))
    as (Hp & Hfs & new & Ht & Hnew).
  fold (list_existing_keys E fuel bucket (ensure_photo_prefix E)) in *.
  rewrite Hlist in Hp, Hfs, Ht. simpl in Hp, Hfs, Ht.
  split_and!; [|done..|].
  - unfold perform_sync. rewrite bind_log. cbv beta.
    unfold bind at 1, get_s3_client. rewrite Hbucket.
    destruct bucket as [|c bucket]; [done|]. simpl.
    unfold bind at 1. fold (logged w (EvPerformSync limit)).
    by rewrite Hlist.
  - exists new. by rewrite Ht, <-(assoc_L (++)).
Qed.

Lemma perform_sync_listing_failure_witness :
  (perform_sync
     (with_listing (Demo.env Demo.two_step)
        (λ _ _ _, Fails (py "AccessDenied")))
     3 Demo.two_step None Demo.world0).1
  = Raise (Exception (py "AccessDenied")).
Proof.
  edestruct (perform_sync_listing_failure
               (with_listing (Demo.env Demo.two_step)
                  (λ _ _ _, Fails (py "AccessDenied")))
               3 Demo.two_step None Demo.world0) as (Hrun & _);
    [reflexivity|done|reflexivity|].
  by rewrite Hrun.
Defined.

(** X10: a truncated page that names no cursor (none, or an empty one)
    makes the lister ask for the first page again: when the first page is
    such a page the lister never returns, whatever the number of requests it
    is allowed. *)
Theorem list_existing_keys_needs_cursor (E : Env) (bucket prefix : pystr)
    (response : ListResponse) (fuel : nat) (w : World) :
  list_objects_v2 E bucket prefix None = Ok response →
  IsTruncated response = true →
  truthy_opt (NextContinuationToken response) = false →
  (list_existing_keys E fuel bucket prefix w).1 = OutOfFuel.
Proof.
  intros Hpage Htruncated Hcursor. unfold list_existing_keys.
  assert (∀ keys continuation w0,
            truthy_opt continuation = false →
            (list_existing_keys_loop E fuel bucket prefix keys continuation
               w0).1 = OutOfFuel) as Hloop; [|by apply Hloop].
  induction fuel as [|fuel IH]; intros keys continuation w0 Hc; [done|].
  simpl. rewrite Hc. unfold bind, log, lift, ret. simpl.
  rewrite Hpage, Htruncated. simpl. by apply IH.
Qed.

Lemma list_existing_keys_needs_cursor_witness :
  (list_existing_keys
     (with_listing (Demo.env Demo.two_step)
        (λ _ _ _, Ok {| Contents := None; IsTruncated := true;
                        NextContinuationToken := Some [] |}))
     1000 (py "bucket") (py "photos/") Demo.world0).1
  = OutOfFuel.
Proof.
  by apply (list_existing_keys_needs_cursor
              (with_listing (Demo.env Demo.two_step)
                 (λ _ _ _, Ok {| Contents := None; IsTruncated := true;
                                 NextContinuationToken := Some [] |}))
              (py "bucket") (py "photos/")
              {| Contents := None; IsTruncated := true;
                 NextContinuationToken := Some [] |} 1000 Demo.world0).
Defined.

(** ** What a run uploads *)

Lemma stored_puts_app a b : stored_puts (a ++ b) = stored_puts a ++ stored_puts b.
Proof. apply omap_app. Qed.

Lemma stored_puts_items q :
  Forall (λ ev, item_event ev = true) q → stored_puts q = [].
Proof. induction 1 as [|[] q Hev _ IH]; simpl; done. Qed.

Lemma stored_puts_listing q :
  Forall (λ ev, is_listing ev = true) q → stored_puts q = [].
Proof. induction 1 as [|[] q Hev _ IH]; simpl; done. Qed.

Lemma put_under_items bucket prefix q :
  Forall (λ ev, item_event ev = true) q → Forall (put_under bucket prefix) q.
Proof. intros Hq. eapply Forall_impl; [exact Hq|]. by intros []. Qed.

Lemma put_under_listing bucket prefix q :
  Forall (λ ev, is_listing ev = true) q → Forall (put_under bucket prefix) q.
Proof. intros Hq. eapply Forall_impl; [exact Hq|]. by intros []. Qed.

Lemma or_else_non_empty o fallback : fallback ≠ [] → or_else o fallback ≠ [].
Proof. by destruct o as [[|c s]|]. Qed.

Lemma item_key_under_prefix E prefix photo filename :
  ∃ rest, item_key E prefix photo filename = prefix ++ rest.
Proof.
  unfold item_key, destination_key. simpl.
  destruct (truthy _); by eexists.
Qed.

(** The call an upload makes. *)
Lemma upload_photo_call E bucket key body w :
  ∃ stored,
    let content_type :=
      or_else (guess_type E key) (py "application/octet-stream") in
    (upload_photo E bucket key body w).2
    = logged w (EvPutObject bucket key body content_type stored)
    ∧ ((upload_photo E bucket key body w).1 = Return () ↔ stored = true)
    ∧ (upload_photo E bucket key body w).1 ≠ OutOfFuel.
Proof.
  unfold upload_photo, bind, get_world, log, lift, logged. simpl.
  destruct (put_object E _ _ _ _ _) as [[]|text]; simpl.
  - by exists true.
  - exists false. by split_and!.
Qed.

(** What one turn of the loop adds to the history, and how the counter of
    imports and the key set follow the stored uploads. *)
Lemma sync_item_effects E bucket prefix photo st w :
  ∃ st' w' new,
    sync_item E bucket prefix photo st w = (Return st', w')
    ∧ trace w' = trace w ++ new
    ∧ Forall (put_under bucket prefix) new
    ∧ imported st' = (imported st + length (stored_puts new))%nat
    ∧ existing st' = existing st ∪ list_to_set (stored_puts new).
Proof.
  destruct (sync_item_cases E bucket prefix photo st w)
    as (filename & w1 & Hrun & Hcases).
  destruct (get_photo_filename_emits E photo w) as (_ & q0 & Ht0 & Hq0).
  rewrite Hrun in Ht0. simpl in *.
  destruct (bool_decide _).
  { exists (skip_state st), w1, q0.
    rewrite (stored_puts_items q0 Hq0). simpl.
    split_and!; [done|done|by apply put_under_items|lia|set_solver]. }
  unfold fetch_and_upload, bind in Hcases.
  destruct (download_photo_bytes_emits E photo w1) as (_ & q1 & Ht1 & Hq1).
  destruct (download_photo_bytes E photo w1) as [[body|exc|] w2];
    simpl in *; [| |done].
  - destruct (upload_photo_call E bucket (item_key E prefix photo filename)
                body w2) as (stored & Hw3 & Hret & _).
    destruct (upload_photo E bucket _ body w2) as [r w3]. simpl in *.
    set (put := EvPutObject bucket (item_key E prefix photo filename) body
                  (or_else (guess_type E (item_key E prefix photo filename))
                     (py "application/octet-stream")) stored) in *.
    assert (trace w3 = trace w ++ q0 ++ q1 ++ [put]) as Htrace.
    { rewrite Hw3. simpl. by rewrite Ht1, Ht0, <-!(assoc_L (++)). }
    assert (Forall (put_under bucket prefix) (q0 ++ q1 ++ [put])) as Hall.
    { rewrite !Forall_app. split_and!; [by apply put_under_items..|].
      constructor; [|done]. split_and!; [done| |].
      - apply item_key_under_prefix.
      - by apply or_else_non_empty. }
    assert (stored_puts (q0 ++ q1 ++ [put])
            = if stored then [item_key E prefix photo filename] else [])
      as Hstored.
    { rewrite !stored_puts_app, (stored_puts_items q0 Hq0),
        (stored_puts_items q1 Hq1). simpl. by destruct stored. }
    destruct r as [[]|exc|].
    + assert (stored = true) as Hs by (by apply Hret).
      rewrite Hs in Hstored.
      eexists _, w3, _. split_and!; [exact Hcases|exact Htrace|exact Hall| |].
      * rewrite Hstored. simpl. lia.
      * rewrite Hstored. simpl. set_solver.
    + assert (stored = false) as Hs.
      { destruct stored; [|done]. discriminate (proj2 Hret eq_refl). }
      rewrite Hs in Hstored.
      eexists _, w3, _. split_and!; [exact Hcases|exact Htrace|exact Hall| |].
      * rewrite Hstored. simpl. lia.
      * rewrite Hstored. simpl. set_solver.
    + done.
  - exists (error_state (failure_message filename exc) st), w2, (q0 ++ q1).
    rewrite stored_puts_app, (stored_puts_items q0 Hq0),
      (stored_puts_items q1 Hq1). simpl.
    split_and!; [done| | |lia|set_solver].
    + by rewrite Ht1, Ht0, <-(assoc_L (++)).
    + rewrite Forall_app. split; by apply put_under_items.
Qed.

Lemma sync_loop_effects E bucket prefix limit photos :
  ∀ index st w,
    ∃ st' w' new,
      sync_loop E bucket prefix limit index photos st w = (Return st', w')
      ∧ trace w' = trace w ++ new
      ∧ Forall (put_under bucket prefix) new
      ∧ imported st' = (imported st + length (stored_puts new))%nat
      ∧ existing st' = existing st ∪ list_to_set (stored_puts new).
Proof.
  induction photos as [|photo rest IH]; intros index st w; simpl.
  { exists st, w, []. rewrite app_nil_r. simpl.
    split_and!; [done..|lia|set_solver]. }
  destruct (limit_reached limit index).
  { exists st, w, []. rewrite app_nil_r. simpl.
    split_and!; [done..|lia|set_solver]. }
  unfold bind.
  destruct (sync_item_effects E bucket prefix photo st w)
    as (st1 & w1 & new1 & -> & Ht1 & Hp1 & Hi1 & He1).
  destruct (IH (S index) st1 w1)
    as (st2 & w2 & new2 & -> & Ht2 & Hp2 & Hi2 & He2).
  exists st2, w2, (new1 ++ new2).
  rewrite stored_puts_app, length_app, list_to_set_app_L.
  split_and!; [done| |by apply Forall_app|lia|set_solver].
  by rewrite Ht2, Ht1, <-(assoc_L (++)).
Qed.

Lemma perform_sync_effects E fuel api limit w :
  let bucket := default [] (environ E !! py "PHOTO_BUCKET") in
  let r := perform_sync E fuel api limit w in
  ∃ new,
    trace r.2 = trace w ++ new
    ∧ Forall (put_under bucket (ensure_photo_prefix E)) new
    ∧ ∀ i s errs, r.1 = Return (i, s, errs) → i = length (stored_puts new).
Proof.
  intros bucket r. subst bucket r.
  unfold perform_sync, bind, log, get_s3_client, ret, raise.
  set (bucket := default [] (environ E !! py "PHOTO_BUCKET")).
  set (prefix := ensure_photo_prefix E).
  destruct (negb (truthy_opt (environ E !! py "PHOTO_BUCKET"))).
  { simpl. exists [EvPerformSync limit]. split_and!; [done| |done].
    by repeat constructor. }
  cbv beta iota. subst bucket.
  set (w0 := {| pending_sessions := pending_sessions w; fs := fs w;
                trace := trace w ++ [EvPerformSync limit] |}).
  match goal with
  | |- context [list_existing_keys E fuel ?b prefix w0] =>
      change (default [] (environ E !! py "PHOTO_BUCKET")) with b;
      set (bucket := b)
  end.
  destruct (list_existing_keys_loop_run E bucket prefix fuel ∅ None w0)
    as (_ & _ & ql & Htl & Hql).
  fold (list_existing_keys E fuel bucket prefix) in Htl.
  destruct (list_existing_keys E fuel bucket prefix w0) as [[keys|e|] w1];
    simpl in Htl.
  - destruct (sync_loop_effects E bucket prefix limit (photos api) 0%nat
                {| existing := keys; imported := 0; skipped := 0;
                   errors := [] |} w1)
      as (st' & w2 & nl & -> & Ht2 & Hnl & Hi & _).
    simpl in *. exists (EvPerformSync limit :: ql ++ nl). split_and!.
    + rewrite Ht2, Htl. by rewrite <-!(assoc_L (++)).
    + constructor; [done|]. apply Forall_app. split; [|done].
      by apply put_under_listing.
    + intros i s errs [= <- _ _]. rewrite Hi.
      change (EvPerformSync limit :: ql ++ nl)
        with ([EvPerformSync limit] ++ ql ++ nl).
      rewrite !stored_puts_app, (stored_puts_listing ql Hql). done.
  - simpl. exists (EvPerformSync limit :: ql). split_and!; [|  |done].
    + rewrite Htl. by rewrite <-(assoc_L (++)).
    + constructor; [done|]. by apply put_under_listing.
  - simpl. exists (EvPerformSync limit :: ql). split_and!; [|  |done].
    + rewrite Htl. by rewrite <-(assoc_L (++)).
    + constructor; [done|]. by apply put_under_listing.
Qed.

(** X3: every upload a sync run makes goes into the bucket named by
    [PHOTO_BUCKET], under a key that starts with the photo prefix, with a
    content type that is not empty; this holds for the whole history of the
    run, whether it returns or raises. *)
Theorem perform_sync_uploads_under_prefix (E : Env) (fuel : nat) (api : Api)
    (limit : option Z) (w : World) :
  ∃ new,
    trace (perform_sync E fuel api limit w).2 = trace w ++ new
    ∧ Forall (put_under (default [] (environ E !! py "PHOTO_BUCKET"))
                (ensure_photo_prefix E)) new.
Proof.
  destruct (perform_sync_effects E fuel api limit w) as (new & Ht & Hnew & _).
  by exists new.
Qed.

(** X11: the number of imports a sync run reports is the number of uploads
    the object store accepted during the run. *)
Theorem perform_sync_imported_counts_stored (E : Env) (fuel : nat) (api : Api)
    (limit : option Z) (w w' : World) (imported skipped : nat)
    (errors : list pystr) :
  perform_sync E fuel api limit w = (Return (imported, skipped, errors), w') →
  ∃ new,
    trace w' = trace w ++ new ∧ imported = length (stored_puts new).
Proof.
  intros Hrun.
  destruct (perform_sync_effects E fuel api limit w) as (new & Ht & _ & Hi).
  rewrite Hrun in Ht, Hi. simpl in *. exists new. split; [done|].
  by eapply Hi.
Qed.

Lemma perform_sync_imported_counts_stored_witness :
  ∃ new,
    trace (perform_sync (Demo.env (Demo.api false false [] Demo.collection))
             2 (Demo.api false false [] Demo.collection) None
             Demo.world0).2
    = trace Demo.world0 ++ new
    ∧ 1%nat = length (stored_puts new).
Proof.
  apply (perform_sync_imported_counts_stored
           (Demo.env (Demo.api false false [] Demo.collection)) 2
           (Demo.api false false [] Demo.collection) None Demo.world0
           (perform_sync (Demo.env (Demo.api false false [] Demo.collection))
              2 (Demo.api false false [] Demo.collection) None
              Demo.world0).2
           1%nat 2%nat []).
  vm_compute. reflexivity.
Defined.

(** ** A collection that is already in the destination *)

Lemma get_photo_filename_static E photo filename w :
  static_filename photo = Some filename →
  get_photo_filename E photo w = (Return filename, w).
Proof.
  unfold static_filename, get_photo_filename.
  destruct (first_truthy _) as [value|]; [by intros [= ->]|].
  destruct (get_photo_identifier photo); [by intros [= <-]|done].
Qed.

Lemma for_each_all_present E bucket prefix items :
  ∀ st w,
    Forall (already_present E prefix (existing st)) items →
    for_each (sync_item E bucket prefix) items st w
    = (Return {| existing := existing st; imported := imported st;
                 skipped := skipped st + length items;
                 errors := errors st |}, w).
Proof.
  induction items as [|photo rest IH]; intros st w Hall; simpl.
  { rewrite Nat.add_0_r. by destruct st. }
  apply Forall_cons in Hall as [(filename & Hname & Hin) Hrest].
  destruct (sync_item_cases E bucket prefix photo st w)
    as (filename' & w1 & Hrun & Hcases).
  rewrite (get_photo_filename_static E photo filename w Hname) in Hrun.
  injection Hrun as <- <-. simpl in Hcases.
  rewrite bool_decide_eq_true_2 in Hcases by done.
  unfold bind. rewrite Hcases, (IH (skip_state st) w Hrest). simpl.
  replace (S (skipped st + length rest)) with (skipped st + S (length rest))%nat
    by lia.
  reflexivity.
Qed.

(** X12: when every item of the collection has a filename or an identifier
    and its key is already in the key set, a run of the loop fetches nothing
    and uploads nothing: the world, history included, is left exactly as it
    was, and the only change is that [skipped] grows by the number of items
    processed. So a second run over an unchanged collection imports
    nothing. *)
Theorem sync_loop_all_present (E : Env) (bucket prefix : pystr)
    (limit : option Z) (items : list Photo) (st : SyncState) (w : World) :
  Forall (already_present E prefix (existing st)) items →
  sync_loop E bucket prefix limit 0 items st w
  = (Return {| existing := existing st; imported := imported st;
               skipped := skipped st + length (processed_items limit items);
               errors := errors st |}, w).
Proof.
  intros Hall. rewrite sync_loop_for_each, processed_items_take.
  apply for_each_all_present.
  unfold processed_items. destruct limit; [|done]. by apply Forall_take.
Qed.

Lemma sync_loop_all_present_witness :
  sync_loop (Demo.env (Demo.api false false [] [])) (py "bucket")
    (py "photos/") None 0 (take 2 Demo.collection)
    {| existing := {[ py "photos/a1-p1.jpg" ]}; imported := 0; skipped := 0;
       errors := [] |} Demo.world0
  = (Return {| existing := {[ py "photos/a1-p1.jpg" ]}; imported := 0;
               skipped := 2; errors := [] |}, Demo.world0).
Proof.
  refine (sync_loop_all_present (Demo.env (Demo.api false false [] []))
            (py "bucket") (py "photos/") None (take 2 Demo.collection)
            {| existing := {[ py "photos/a1-p1.jpg" ]}; imported := 0;
               skipped := 0; errors := [] |} Demo.world0 _).
  assert (already_present (Demo.env (Demo.api false false [] []))
            (py "photos/") {[ py "photos/a1-p1.jpg" ]}
            (Demo.photo (Some (py "a1")) (Some (py "p1.jpg"))
               (Ok (DBytes Demo.jpeg)))) as Hpresent.
  { exists (py "p1.jpg"). split; [reflexivity|]. by apply elem_of_singleton_2. }
  exact (Forall_cons_2 _ _ _ Hpresent
           (Forall_cons_2 _ _ _ Hpresent (Forall_nil_2 _))).
Defined.

(** ** Relations the worker keeps between the world before and after *)

Section Steps.
Context (R : World → World → Prop).
Hypothesis R_refl : ∀ w, R w w.
Hypothesis R_trans : ∀ w1 w2 w3, R w1 w2 → R w2 w3 → R w1 w3.
Hypothesis R_log : ∀ w ev, R w (logged w ev).
Hypothesis R_fs :
  ∀ w f, dom (fs w) ⊆ dom f →
         R w {| pending_sessions := pending_sessions w; fs := f;
                trace := trace w |}.

Lemma steps_ret {A} (a : A) : steps R (ret a).
Proof using All. intros w. apply R_refl. Qed.

Lemma steps_raise {A} (e : exn) : steps R (raise (A := A) e).
Proof using All. intros w. apply R_refl. Qed.

Lemma steps_lift {A} (a : answer A) : steps R (lift a).
Proof using All. destruct a; [apply steps_ret|apply steps_raise]. Qed.

Lemma steps_get_world : steps R get_world.
Proof using All. intros w. apply R_refl. Qed.

Lemma steps_log ev : steps R (log ev).
Proof using All. intros w. apply R_log. Qed.

Lemma steps_bind {A B} (m : M A) (k : A → M B) :
  steps R m → (∀ a, steps R (k a)) → steps R (bind m k).
Proof using All.
  intros Hm Hk w. unfold bind. specialize (Hm w).
  destruct (m w) as [[a|e|] w1]; simpl in *; [|done..].
  eapply R_trans; [exact Hm|apply Hk].
Qed.

Lemma steps_try_except {A} (body : M A) (handler : exn → M A) :
  steps R body → (∀ e, steps R (handler e)) → steps R (try_except body handler).
Proof using All.
  intros Hm Hk w. unfold try_except. specialize (Hm w).
  destruct (body w) as [[a|e|] w1]; simpl in *; [done| |done].
  eapply R_trans; [exact Hm|apply Hk].
Qed.

Ltac steps_step :=
  lazymatch goal with
  | |- steps _ (bind _ _) => apply steps_bind; [|intros ?]
  | |- steps _ (try_except _ _) => apply steps_try_except; [|intros ?]
  | |- steps _ (ret _) => apply steps_ret
  | |- steps _ (raise _) => apply steps_raise
  | |- steps _ (lift _) => apply steps_lift
  | |- steps _ get_world => apply steps_get_world
  | |- steps _ (log _) => apply steps_log
  | |- steps _ (match ?x with _ => _ end) => destruct x
  end.

Lemma steps_mkdtemp E prefix : steps R (mkdtemp E prefix).
Proof using All.
  intros w. pose proof (mkdtemp_run E prefix w) as Hrun.
  destruct (mkdtemp E prefix w) as [[dir|e|] w']; simpl; [| |done].
  - destruct Hrun as (_ & _ & ->).
    eapply R_trans; [apply (R_fs w (<[dir := ∅]> (fs w)))|].
    + rewrite dom_insert_L. set_solver.
    + exact (R_log {| pending_sessions := pending_sessions w;
                      fs := <[dir := ∅]> (fs w); trace := trace w |}
               (EvMkdtemp dir)).
  - subst w'. apply R_refl.
Qed.

Lemma steps_write_text E path text : steps R (write_text E path text).
Proof using All.
  intros w. unfold write_text, bind, get_world, set_fs, raise.
  destruct (bool_decide _); [apply R_refl|]. simpl.
  destruct (fs w !! parent_dir path) as [entries|] eqn:Hparent;
    [|apply R_refl].
  destruct (_ || _); [apply R_refl|].
  destruct (os_error E path); [apply R_refl|]. simpl.
  apply R_fs. rewrite dom_insert_L.
  apply elem_of_dom_2 in Hparent. set_solver.
Qed.

Lemma steps_uuid4 E : steps R (uuid4 E).
Proof using All. unfold uuid4. repeat steps_step. Qed.

Lemma steps_time E : steps R (time E).
Proof using All. unfold time. repeat steps_step. Qed.

Lemma steps_verify_token E authorization :
  steps R (verify_token E authorization).
Proof using All. unfold verify_token. repeat steps_step. Qed.

Lemma steps_create_session_dir E session :
  steps R (create_session_dir E session).
Proof using All.
  unfold create_session_dir.
  repeat steps_step; first [apply steps_mkdtemp|apply steps_write_text].
Qed.

Lemma steps_login E apple_id app_password dir :
  steps R (login E apple_id app_password dir).
Proof using All. unfold login. repeat steps_step. Qed.

Lemma steps_extract_session_payload dir :
  steps R (extract_session_payload dir).
Proof using All. unfold extract_session_payload. repeat steps_step. Qed.

Lemma steps_get_photo_filename E photo : steps R (get_photo_filename E photo).
Proof using All.
  unfold get_photo_filename. repeat steps_step. apply steps_uuid4.
Qed.

Lemma steps_download_photo_bytes E photo :
  steps R (download_photo_bytes E photo).
Proof using All.
  unfold download_photo_bytes.
  repeat steps_step;
    first [apply steps_mkdtemp|apply steps_get_photo_filename].
Qed.

Lemma steps_upload_photo E bucket key body :
  steps R (upload_photo E bucket key body).
Proof using All. unfold upload_photo. repeat steps_step. Qed.

Lemma steps_sync_item E bucket prefix photo st :
  steps R (sync_item E bucket prefix photo st).
Proof using All.
  unfold sync_item.
  repeat steps_step;
    first [apply steps_get_photo_filename|apply steps_download_photo_bytes
          |apply steps_upload_photo].
Qed.

Lemma steps_sync_loop E bucket prefix limit photos :
  ∀ index st, steps R (sync_loop E bucket prefix limit index photos st).
Proof using All.
  induction photos as [|photo rest IH]; intros index st; simpl.
  - apply steps_ret.
  - repeat steps_step; first [apply steps_sync_item|apply IH].
Qed.

Lemma steps_list_existing_keys_loop E bucket prefix fuel :
  ∀ keys continuation,
    steps R (list_existing_keys_loop E fuel bucket prefix keys continuation).
Proof using All.
  induction fuel as [|fuel IH]; intros keys continuation; simpl.
  - intros w. apply R_refl.
  - repeat steps_step. apply IH.
Qed.

Lemma steps_perform_sync E fuel api limit :
  steps R (perform_sync E fuel api limit).
Proof using All.
  unfold perform_sync, get_s3_client, list_existing_keys.
  repeat steps_step;
    first [apply steps_list_existing_keys_loop|apply steps_sync_loop].
Qed.

Lemma steps_sync_photos E fuel request authorization :
  (∀ w sid s,
     R w {| pending_sessions := <[sid := s]> (pending_sessions w);
            fs := fs w; trace := trace w |}) →
  steps R (sync_photos E fuel request authorization).
Proof using All.
  intros R_insert. unfold sync_photos.
  apply steps_bind; [apply steps_verify_token|]. intros _.
  apply steps_bind; [apply steps_create_session_dir|]. intros dir.
  apply steps_bind; [apply steps_login|]. intros api.
  destruct (requires_2fa api || requires_2sa api).
  - apply steps_bind; [apply steps_uuid4|]. intros sid.
    apply steps_bind; [apply steps_time|]. intros now.
    intros w. unfold bind, get_world, set_pending, ret. simpl.
    apply R_insert.
  - apply steps_bind; [apply steps_perform_sync|]. intros [[i sk] errs].
    apply steps_bind; [apply steps_extract_session_payload|]. intros sp.
    apply steps_ret.
Qed.

Lemma steps_sync_with_2fa E fuel payload authorization :
  (∀ w,
     R w {| pending_sessions := delete (session_id payload) (pending_sessions w);
            fs := fs w; trace := trace w |}) →
  steps R (sync_with_2fa E fuel payload authorization).
Proof using All.
  intros R_delete. unfold sync_with_2fa.
  apply steps_bind; [apply steps_verify_token|]. intros _.
  apply steps_bind; [apply steps_get_world|]. intros w0.
  destruct (pending_sessions w0 !! session_id payload) as [pending|];
    [|apply steps_raise].
  apply steps_bind; [apply steps_login|]. intros api.
  apply steps_bind; [repeat steps_step|]. intros _.
  apply steps_bind; [apply steps_perform_sync|]. intros [[i sk] errs].
  apply steps_bind; [apply steps_extract_session_payload|]. intros sp.
  intros w. unfold bind, get_world, set_pending, ret. simpl.
  apply R_delete.
Qed.

End Steps.

Lemma dirs_kept_refl w : dirs_kept w w.
Proof. unfold dirs_kept. done. Qed.

Lemma dirs_kept_trans w1 w2 w3 :
  dirs_kept w1 w2 → dirs_kept w2 w3 → dirs_kept w1 w3.
Proof. unfold dirs_kept. set_solver. Qed.

Lemma dirs_kept_log w ev : dirs_kept w (logged w ev).
Proof. unfold dirs_kept. done. Qed.

Lemma dirs_kept_fs w f :
  dom (fs w) ⊆ dom f →
  dirs_kept w {| pending_sessions := pending_sessions w; fs := f;
                 trace := trace w |}.
Proof. unfold dirs_kept. done. Qed.

(** X13: neither handler, nor a run of the engine, ever removes a directory:
    every directory of the file system before a call is still there after
    it, so the session directories and the download directories the worker
    makes stay. *)
Theorem worker_never_removes_directories (E : Env) (fuel : nat) :
  (∀ api limit, steps dirs_kept (perform_sync E fuel api limit))
  ∧ (∀ request authorization,
       steps dirs_kept (sync_photos E fuel request authorization))
  ∧ (∀ payload authorization,
       steps dirs_kept (sync_with_2fa E fuel payload authorization)).
Proof.
  assert (∀ w, dirs_kept w w) as Hrefl by (intros w; unfold dirs_kept; done).
  assert (∀ w1 w2 w3, dirs_kept w1 w2 → dirs_kept w2 w3 → dirs_kept w1 w3)
    as Htrans by (unfold dirs_kept; intros; set_solver).
  assert (∀ w ev, dirs_kept w (logged w ev)) as Hlog
    by (intros w ev; unfold dirs_kept; done).
  assert (∀ w f, dom (fs w) ⊆ dom f →
                 dirs_kept w {| pending_sessions := pending_sessions w;
                                fs := f; trace := trace w |}) as Hfs
    by (intros w f Hf; unfold dirs_kept; done).
  split_and!; intros.
  - apply steps_perform_sync; assumption.
  - apply steps_sync_photos; assumption || (intros; unfold dirs_kept; done).
  - apply steps_sync_with_2fa; assumption || (intros; unfold dirs_kept; done).
Qed.

(** X14: a sync request never removes a pending session from the table,
    whatever its outcome. *)
Theorem sync_photos_keeps_sessions (E : Env) (fuel : nat)
    (request : SyncRequest) (authorization : option pystr) (w : World) :
  dom (pending_sessions w)
  ⊆ dom (pending_sessions (sync_photos E fuel request authorization w).2).
Proof.
  apply (steps_sync_photos sessions_kept); unfold sessions_kept; try done.
  - intros; set_solver.
  - intros w0 sid s. simpl. rewrite dom_insert_L. set_solver.
Qed.

(** X15: a resume call leaves the table as it was or removes the entry of
    its own session id, whatever its outcome: it never adds an entry and
    never changes the entry of another session. *)
Theorem sync_with_2fa_touches_own_session_only (E : Env) (fuel : nat)
    (payload : TwoFactorRequest) (authorization : option pystr) (w : World) :
  let w' := (sync_with_2fa E fuel payload authorization w).2 in
  (pending_sessions w' = pending_sessions w
   ∨ pending_sessions w' = delete (session_id payload) (pending_sessions w))
  ∧ ∀ sid, sid ≠ session_id payload →
           pending_sessions w' !! sid = pending_sessions w !! sid.
Proof.
  intros w'.
  assert (at_most_resolved (session_id payload) w w') as Hstep.
  { apply (steps_sync_with_2fa (at_most_resolved (session_id payload)));
      unfold at_most_resolved; simpl; try (by left); try (by right).
    intros w1 w2 w3 [H12|H12] [H23|H23]; rewrite H23, H12;
      [by left|by right|by right|right; by rewrite delete_delete_eq]. }
  split; [exact Hstep|].
  intros sid Hsid. destruct Hstep as [->| ->]; [done|].
  by rewrite lookup_delete_ne.
Qed.

(** ** Requests *)

(** X16: a request the token check refuses is answered with the error of
    the check by both handlers, and nothing has happened: no directory is
    made, no login attempted, the table is untouched. *)
Theorem handlers_reject_before_any_effect (E : Env) (fuel : nat)
    (request : SyncRequest) (payload : TwoFactorRequest)
    (authorization : option pystr) (w : World) (e : exn) :
  (verify_token E authorization w).1 = Raise e →
  sync_photos E fuel request authorization w = (Raise e, w)
  ∧ sync_with_2fa E fuel payload authorization w = (Raise e, w).
Proof.
  intros Hrefused. pose proof (verify_token_world E authorization w) as Hw.
  unfold sync_photos, sync_with_2fa, bind.
  destruct (verify_token E authorization w) as [r w0]. simpl in *.
  by subst r w0.
Qed.

Lemma handlers_reject_before_any_effect_witness :
  sync_photos (Demo.env Demo.two_step) 3 Demo.request None Demo.world0
  = (Raise (HTTPException 401 (py "Missing bearer token")), Demo.world0).
Proof.
  apply (handlers_reject_before_any_effect (Demo.env Demo.two_step) 3
           Demo.request {| session_id := []; code := [] |} None Demo.world0).
  reflexivity.
Defined.

(** X17: when the login of an authenticated sync request needs no
    verification, no session is stored: the table is as before whatever the
    outcome, the engine is entered exactly once, with the limit of the
    request, and a response, when there is one, is the outcome of the
    run. *)
Theorem sync_photos_without_challenge (E : Env) (fuel : nat)
    (request : SyncRequest) (authorization : option pystr) (w w1 w2 : World)
    (dir : pystr) (api : Api) :
  (verify_token E authorization w).1 = Return () →
  create_session_dir E (req_session request) w = (Return dir, w1) →
  login E (req_apple_id request) (req_app_password request) dir w1
  = (Return api, w2) →
  requires_2fa api = false → requires_2sa api = false →
  let r := sync_photos E fuel request authorization w in
  pending_sessions r.2 = pending_sessions w
  ∧ sync_runs (trace r.2) = sync_runs (trace w) ++ [req_limit request]
  ∧ logins (trace r.2) = logins (trace w) ++ [dir]
  ∧ ∀ response, r.1 = Return response →
                ∃ imported skipped errors session,
                  response = SyncOk imported skipped errors session.
Proof.
  intros Hauth Hdir Hlogin H2fa H2sa r.
  destruct (create_session_dir_emits E (req_session request) w)
    as (Hp1 & q1 & Ht1 & Hq1).
  rewrite Hdir in Hp1, Ht1. simpl in Hp1, Ht1.
  pose proof (login_run E (req_apple_id request) (req_app_password request)
                dir w1) as Hw2.
  rewrite Hlogin in Hw2. simpl in Hw2.
  assert (r = (let* (imported, skipped, errors) :=
                 perform_sync E fuel api (req_limit request) in
               let* session_payload := extract_session_payload dir in
               ret (SyncOk imported skipped errors session_payload)) w2)
    as ->.
  { subst r. unfold sync_photos, bind at 1.
    rewrite (verify_token_accepts E authorization w Hauth).
    unfold bind at 1. rewrite Hdir. unfold bind at 1. rewrite Hlogin.
    by rewrite H2fa, H2sa. }
  destruct (perform_sync_run E fuel api (req_limit request) w2)
    as (Hp & new & Ht & Hnew).
  assert (sync_runs (trace w2) = sync_runs (trace w)
          ∧ logins (trace w2) = logins (trace w) ++ [dir]
          ∧ pending_sessions w2 = pending_sessions w) as (Hr2 & Hl2 & Hp2).
  { rewrite Hw2. simpl. rewrite Ht1, !sync_runs_app, !logins_app,
      (sync_runs_items q1 Hq1), (logins_items q1 Hq1). simpl.
    by rewrite !app_nil_r. }
  unfold bind, ret.
  destruct (perform_sync E fuel api (req_limit request) w2)
    as [[[[i s] errs]|e|] w3]; simpl in *.
  - destruct (extract_session_payload_emits (λ _, False) dir w3)
      as (Hp4 & new4 & Ht4 & Hnew4).
    assert (new4 = []) as -> by (destruct new4; [done|by inversion Hnew4]).
    rewrite app_nil_r in Ht4.
    assert (sync_runs (trace w3) = sync_runs (trace w) ++ [req_limit request]
            ∧ logins (trace w3) = logins (trace w) ++ [dir]) as [Hr3 Hl3].
    { rewrite Ht, sync_runs_app, logins_app. simpl.
      by rewrite (sync_runs_engine new), (logins_engine new), Hr2, Hl2,
        app_nil_r. }
    destruct (extract_session_payload dir w3) as [[sp|e|] w4]; simpl in *;
      (split_and!; [congruence|congruence|congruence|]);
      [intros response [= <-]; eauto|done..].
  - split_and!; [congruence| | |done].
    + rewrite Ht, sync_runs_app. simpl.
      by rewrite (sync_runs_engine new), Hr2.
    + rewrite Ht, logins_app. simpl.
      by rewrite (logins_engine new), Hl2, app_nil_r.
  - split_and!; [congruence| | |done].
    + rewrite Ht, sync_runs_app. simpl.
      by rewrite (sync_runs_engine new), Hr2.
    + rewrite Ht, logins_app. simpl.
      by rewrite (logins_engine new), Hl2, app_nil_r.
Qed.

Lemma sync_photos_without_challenge_witness :
  (sync_photos (Demo.env (Demo.api false false [] Demo.collection)) 3
     Demo.request Demo.bearer Demo.world0).1
  = Return (SyncOk 1 2 [] None).
Proof.
  edestruct (sync_photos_without_challenge
               (Demo.env (Demo.api false false [] Demo.collection)) 3
               Demo.request Demo.bearer Demo.world0)
    as (_ & _ & _ & Hresp);
    [vm_compute; reflexivity..|reflexivity|reflexivity|].
  vm_compute. reflexivity.
Defined.

(** ** Session directories and cache payloads *)





(** The directory create_session_dir returns did not exist before and
    exists afterwards, beside the directories there were. *)
Lemma create_session_dir_fresh E session w dir w1 :
  create_session_dir E session w = (Return dir, w1) →
  (dir ∉ dom (fs w)) ∧ dir ∈ dom (fs w1) ∧ dom (fs w) ⊆ dom (fs w1).
Proof.
  pose proof (mkdtemp_run E (py "icloud-session-") w) as Hmk.
  unfold create_session_dir, bind at 1.
  destruct (mkdtemp E (py "icloud-session-") w) as [[d|e|] w0]; [|done..].
  destruct Hmk as (_ & Hd & ->).
  match goal with
  | |- bind ?m ?k ?w0 = _ → _ =>
      assert (steps dirs_kept m) as Hwrite;
      [|specialize (Hwrite w0); unfold bind;
        destruct (m w0) as [[[]|e|] w3]]
  end.
  { destruct session.
    - apply steps_write_text;
        [apply dirs_kept_refl|apply dirs_kept_trans|apply dirs_kept_log
        |apply dirs_kept_fs].
    - intros w0. apply dirs_kept_refl. }
  2,3: by simpl.
  simpl. intros [= <- <-]. unfold dirs_kept in Hwrite. simpl in Hwrite.
  rewrite dom_insert_L in Hwrite. set_solver.
Qed.

(** X20: when a sync request is parked, the directory stored with the new
    session did not exist before the request, so, every stored session
    having an existing directory, it differs from the directory of every
    other session; and every stored session still has an existing directory
    afterwards. *)
Theorem sync_photos_parks_with_fresh_directory (E : Env) (fuel : nat)
    (request : SyncRequest) (authorization : option pystr) (w w1 w2 : World)
    (dir : pystr) (api : Api) :
  (verify_token E authorization w).1 = Return () →
  create_session_dir E (req_session request) w = (Return dir, w1) →
  login E (req_apple_id request) (req_app_password request) dir w1
  = (Return api, w2) →
  requires_2fa api || requires_2sa api = true →
  dirs_exist w →
  let w' := (sync_photos E fuel request authorization w).2 in
  (∀ sid s, pending_sessions w !! sid = Some s → session_dir s ≠ dir)
  ∧ (∃ s, pending_sessions w' !! uuid4_hex E (trace w2) = Some s
          ∧ session_dir s = dir)
  ∧ dirs_exist w'.
Proof.
  intros Hauth Hdir Hlogin Hchallenge Hexist w'.
  destruct (create_session_dir_emits E (req_session request) w)
    as (Hp1 & _).
  rewrite Hdir in Hp1. simpl in Hp1.
  pose proof (login_run E (req_apple_id request) (req_app_password request)
                dir w1) as Hw2.
  rewrite Hlogin in Hw2. simpl in Hw2.
  destruct (create_session_dir_fresh E (req_session request) w dir w1 Hdir)
    as (Hfresh & Hdir1 & Hkept).
  assert (sync_photos E fuel request authorization w
          = (Return (Needs2FA (uuid4_hex E (trace w2))),
             {| pending_sessions :=
                  <[uuid4_hex E (trace w2) :=
                      {| apple_id := req_apple_id request;
                         app_password := req_app_password request;
                         session_dir := dir;
                         created_at :=
                           time_time E
                             (trace w2 ++ [EvUuid4 (uuid4_hex E (trace w2))])
                      |}]> (pending_sessions w2);
                fs := fs w2;
                trace := (trace w2 ++ [EvUuid4 (uuid4_hex E (trace w2))])
                         ++ [EvTime
                               (time_time E
                                  (trace w2
                                   ++ [EvUuid4 (uuid4_hex E (trace w2))]))]
             |})) as Hrun.
  { unfold sync_photos, bind at 1.
    rewrite (verify_token_accepts E authorization w Hauth).
    unfold bind at 1. rewrite Hdir. unfold bind at 1. rewrite Hlogin.
    rewrite Hchallenge. reflexivity. }
  subst w'. rewrite Hrun. simpl.
  assert (fs w2 = fs w1) as Hfs2 by (by rewrite Hw2).
  assert (pending_sessions w2 = pending_sessions w) as Hp2
    by (by rewrite Hw2).
  split_and!.
  - intros sid s Hs Heq. apply Hfresh. rewrite <-Heq. by eapply Hexist.
  - rewrite lookup_insert_eq. by eexists.
  - intros sid s. simpl. rewrite Hfs2, Hp2.
    destruct (decide (sid = uuid4_hex E (trace w2))) as [->|Hne].
    + rewrite lookup_insert_eq. by intros [= <-].
    + rewrite lookup_insert_ne by done. intros Hs.
      apply Hkept. by eapply Hexist.
Qed.

Lemma sync_photos_parks_with_fresh_directory_witness :
  ∃ s,
    pending_sessions
      (sync_photos (Demo.env Demo.two_step) 3 Demo.request Demo.bearer
         Demo.world0).2 !! py "aaa" = Some s
    ∧ session_dir s = py "/tmp/icloud-session-k3x".
Proof.
  edestruct (sync_photos_parks_with_fresh_directory (Demo.env Demo.two_step)
               3 Demo.request Demo.bearer Demo.world0) as (_ & Hnew & _);
    [vm_compute; reflexivity..|reflexivity| |exact Hnew].
  intros sid s Hs. cbv [Demo.world0 pending_sessions] in Hs.
  by rewrite lookup_empty in Hs.
Defined.

(** A limit that is zero or negative stops the loop before the first
    item: nothing is fetched, uploaded or counted, whatever the collection;
    zero does not mean "no limit". *)
Theorem sync_loop_non_positive_limit (E : Env) (bucket prefix : pystr)
    (n : Z) (items : list Photo) (st : SyncState) (w : World) :
  n ≤ 0 →
  sync_loop E bucket prefix (Some n) 0 items st w = (Return st, w).
Proof.
  intros Hn. destruct items as [|photo rest]; [done|]. simpl.
  by rewrite bool_decide_eq_true_2 by lia.
Qed.

Lemma sync_loop_non_positive_limit_witness :
  sync_loop (Demo.env Demo.two_step) (py "bucket") (py "photos/") (Some 0) 0
    Demo.collection
    {| existing := ∅; imported := 0; skipped := 0; errors := [] |}
    Demo.world0
  = (Return {| existing := ∅; imported := 0; skipped := 0; errors := [] |},
     Demo.world0).
Proof.
  apply (sync_loop_non_positive_limit (Demo.env Demo.two_step) (py "bucket")
           (py "photos/") 0 Demo.collection
           {| existing := ∅; imported := 0; skipped := 0; errors := [] |}
           Demo.world0).
  lia.
Defined.

Lemma dirs_exist_kept_same w w' :
  pending_sessions w' = pending_sessions w → dirs_kept w w' →
  dirs_exist_kept w w'.
Proof.
  intros Hp Hd Hw sid s. rewrite Hp. intros Hs. apply Hd. by eapply Hw.
Qed.

Lemma dirs_exist_kept_refl w : dirs_exist_kept w w.
Proof. by intros Hw. Qed.

Lemma dirs_exist_kept_trans w1 w2 w3 :
  dirs_exist_kept w1 w2 → dirs_exist_kept w2 w3 → dirs_exist_kept w1 w3.
Proof. unfold dirs_exist_kept. tauto. Qed.

Lemma dirs_exist_kept_log w ev : dirs_exist_kept w (logged w ev).
Proof. apply dirs_exist_kept_same; [reflexivity|apply dirs_kept_log]. Qed.

Lemma dirs_exist_kept_fs w f :
  dom (fs w) ⊆ dom f →
  dirs_exist_kept w {| pending_sessions := pending_sessions w; fs := f;
                       trace := trace w |}.
Proof.
  intros Hf. apply dirs_exist_kept_same; [reflexivity|by apply dirs_kept_fs].
Qed.

(** X21: both handlers keep the cache directory of every pending session in
    existence: if it holds before a call that every session of the table
    has an existing directory, it holds after it, whatever the outcome. *)
Theorem handlers_keep_session_directories (E : Env) (fuel : nat)
    (request : SyncRequest) (payload : TwoFactorRequest)
    (authorization : option pystr) (w : World) :
  dirs_exist w →
  dirs_exist (sync_photos E fuel request authorization w).2
  ∧ dirs_exist (sync_with_2fa E fuel payload authorization w).2.
Proof.
  intros Hw. split.
  - unfold sync_photos, bind at 1.
    pose proof (verify_token_world E authorization w) as Hv.
    destruct (verify_token E authorization w) as [[[]|e|] w0];
      simpl in Hv; subst w0; [|done..].
    unfold bind at 1.
    pose proof (create_session_dir_fresh E (req_session request) w) as Hfresh.
    pose proof (steps_create_session_dir dirs_exist_kept
                  dirs_exist_kept_refl dirs_exist_kept_trans
                  dirs_exist_kept_log dirs_exist_kept_fs E
                  (req_session request) w Hw) as Hw1.
    destruct (create_session_dir E (req_session request) w)
      as [[dir|e|] w1]; simpl in Hw1; [|done..].
    destruct (Hfresh dir w1 eq_refl) as (_ & Hdir & _).
    unfold bind at 1.
    pose proof (login_run E (req_apple_id request) (req_app_password request)
                  dir w1) as Hw2.
    destruct (login E (req_apple_id request) (req_app_password request)
                dir w1) as [[api|e|] w2]; simpl in Hw2; subst w2;
      [|done..].
    destruct (requires_2fa api || requires_2sa api).
    + unfold bind, uuid4, time, get_world, log, set_pending, ret. simpl.
      intros sid s. simpl.
      match goal with
      | |- <[?k := _]> _ !! _ = _ → _ =>
          destruct (decide (sid = k)) as [->|Hne]
      end.
      * rewrite lookup_insert_eq. by intros [= <-].
      * rewrite lookup_insert_ne by done. apply Hw1.
    + match goal with
      | |- dirs_exist (?m ?w2).2 =>
          assert (steps dirs_exist_kept m) as Htail
      end.
      { apply (steps_bind dirs_exist_kept dirs_exist_kept_refl
                 dirs_exist_kept_trans dirs_exist_kept_log
                 dirs_exist_kept_fs);
          [apply (steps_perform_sync dirs_exist_kept dirs_exist_kept_refl
                    dirs_exist_kept_trans dirs_exist_kept_log
                    dirs_exist_kept_fs)|].
        intros [[i sk] errs].
        apply (steps_bind dirs_exist_kept dirs_exist_kept_refl
                 dirs_exist_kept_trans dirs_exist_kept_log
                 dirs_exist_kept_fs);
          [apply (steps_extract_session_payload dirs_exist_kept
                    dirs_exist_kept_refl dirs_exist_kept_trans
                    dirs_exist_kept_log dirs_exist_kept_fs)|].
        intros sp.
        apply (steps_ret dirs_exist_kept dirs_exist_kept_refl
                 dirs_exist_kept_trans dirs_exist_kept_log
                 dirs_exist_kept_fs). }
      apply Htail. intros sid s Hs. by eapply Hw1.
  - apply (steps_sync_with_2fa dirs_exist_kept dirs_exist_kept_refl
             dirs_exist_kept_trans dirs_exist_kept_log dirs_exist_kept_fs);
      [|exact Hw].
    intros w0 Hw0 sid s. simpl.
    intros [_ Hs]%lookup_delete_Some. by eapply Hw0.
Qed.

Lemma handlers_keep_session_directories_witness :
  dirs_exist
    (sync_photos (Demo.env Demo.two_step) 3 Demo.request Demo.bearer
       Demo.world0).2.
Proof.
  apply (handlers_keep_session_directories (Demo.env Demo.two_step) 3
           Demo.request {| session_id := []; code := [] |} Demo.bearer
           Demo.world0).
  intros sid s Hs. cbv [Demo.world0 pending_sessions] in Hs.
  by rewrite lookup_empty in Hs.
Defined.
